(** * tbl-template.py: table and column resolution, connection handling and
    the ODS writer, embedded from [src/tbl-template.py].

    Python [str] values are modelled as [string]: sequences of code points
    below 256, compared code point by code point as Python does.  The
    PostgreSQL server and the odfpy element tree are the program's
    environment; they are modelled as far as the script observes them. *)

From stdpp Require Import gmap strings list sorting.
From Stdlib Require Import Ascii.

Set Warnings "-clear-no-such-hyp".


(** ** Python built-ins used by the script *)

(** [str.isspace] on one code point below 256: TAB, LF, VT, FF, CR,
    FS, GS, RS, US, SPACE, NEL (0x85) and NBSP (0xA0). *)
Definition isspace (c : ascii) : bool :=
  match c with
  | "009" | "010" | "011" | "012" | "013"
  | "028" | "029" | "030" | "031" | " " | "133" | "160" => true
  | _ => false
  end%char.

Fixpoint lstrip (s : string) : string :=
  match s with
  | "" => ""
  | String c s' => if isspace c then lstrip s' else s
  end.

Fixpoint rstrip (s : string) : string :=
  match s with
  | "" => ""
  | String c s' =>
      match rstrip s' with
      | "" => if isspace c then "" else String c ""
      | r => String c r
      end
  end.

(** [s.strip()] *)
Definition strip (s : string) : string := lstrip (rstrip s).

(** [s.split(sep)] for a separator of one character: the result is never
    empty, and two adjacent separators delimit an empty field. *)
Fixpoint split (sep : ascii) (s : string) : list string :=
  match s with
  | "" => [""]
  | String c s' =>
      if decide (c = sep) then "" :: split sep s'
      else match split sep s' with
           | [] => [String c ""]
           | f :: fs => String c f :: fs
           end
  end.

(** [sep.join(l)] *)
Fixpoint join (sep : string) (l : list string) : string :=
  match l with
  | [] => ""
  | [x] => x
  | x :: l' => x +:+ sep +:+ join sep l'
  end.

(** [re.search('\\*', s)]: the pattern is the literal character [*], so
    the search succeeds exactly when [s] contains one. *)
Fixpoint re_search_star (s : string) : bool :=
  match s with
  | "" => false
  | String c s' => if decide (c = "*"%char) then true else re_search_star s'
  end.

(** [set(l)] followed by [list(...)]: the elements of the set, in the
    set's own iteration order. *)
Definition list_set (l : list string) : list string :=
  elements (list_to_set l : gset string).

(** [sorted(l)] on strings: ascending by code points. *)
Definition sorted (l : list string) : list string := merge_sort String.le l.


(** ** The environment: exceptions, the PostgreSQL server, connections *)

Inductive exn :=
| OperationalError            (* psycopg2.connect failed *)
| InterfaceError              (* cursor() on a closed connection *)
| AttributeError              (* attribute access on None *)
| TypeError                   (* io.open(None, ...) *)
| OSError                     (* io.open(name, "wb") could not open the file *)
| DatabaseError (msg : string). (* cursor.execute failed on the server *)

(** A result row: its first field ([row[0]]) and the remaining ones. *)
Record row := Row { col0 : string; cols : list string }.

(** The four SQL texts the script sends.  Each is an f-string; a query is
    the template together with the values spliced into it, unescaped,
    between single quotes. *)
Inductive query :=
| SelectTables (schema : string)
    (* SELECT table_name FROM information_schema.tables
       WHERE table_schema = '{schema}' ORDER BY table_name; *)
| SelectTablesILike (schema tbl : string)
    (* SELECT table_name FROM information_schema.tables
       WHERE table_schema = '{schema}' AND table_name ilike '{tbl}'; *)
| SelectTableEq (schema tbl : string)
    (* SELECT * FROM information_schema.tables
       WHERE table_schema = '{schema}' AND table_name = '{tbl}'; *)
| SelectColumns (schema tbl : string).
    (* SELECT column_name FROM information_schema.columns
       WHERE table_schema = '{schema}' AND table_name = '{tbl}'; *)

(** The server: whether [psycopg2.connect] succeeds on the connection
    string the script builds from host, database, user and password, and
    what the server answers to a query text sent on a connection no
    statement of which has failed.  Its catalog does not change while the
    script runs. *)
Record server := Server {
  accepts : string → string → string → string → bool;
  answer : query → exn + list row
}.

(** What happened to connections, newest event first.  A connection is
    named by the number of events that preceded its creation. *)
Inductive event := Connect (c : nat) | Close (c : nat).

Definition world := list event.

Fixpoint live (w : world) : gset nat :=
  match w with
  | [] => ∅
  | Connect c :: w' => {[c]} ∪ live w'
  | Close c :: w' => live w' ∖ {[c]}
  end.

(** ** A state and exception monad: a method runs on [self] and the world,
    and either returns or raises, keeping the mutations made so far. *)

Definition M (St A : Type) : Type := St → (exn + A) * St.

Global Instance M_ret {St} : MRet (M St) := λ A a s, (inr a, s).
Global Instance M_bind {St} : MBind (M St) := λ A B f m s,
  match m s with
  | (inl e, s') => (inl e, s')
  | (inr a, s') => f a s'
  end.

Definition raise {St A} (e : exn) : M St A := λ s, (inl e, s).
Definition get {St} : M St St := λ s, (inr s, s).
Definition modify {St} (f : St → St) : M St unit := λ s, (inr tt, f s).

(** [for x in l: acc = body(acc, x)] *)
Fixpoint for_each {St A B} (l : list A) (body : B → A → M St B) (acc : B) : M St B :=
  match l with
  | [] => mret acc
  | x :: l' => acc' ← body acc x; for_each l' body acc'
  end.

(** ** class Database *)

Record Database := mkDatabase {
  host : string;
  db : string;
  user : string;
  password : option string;
  conn : option nat
}.

Definition set_password (self : Database) (p : option string) : Database :=
  mkDatabase (host self) (db self) (user self) p (conn self).
Definition set_conn (self : Database) (c : option nat) : Database :=
  mkDatabase (host self) (db self) (user self) (password self) c.

(** [getpass.getpass(prompt)]: what the user types at the terminal. *)
Definition get_password (typed : string) (self : Database) : string := typed.

(** [Database.__init__(host, db, user, password=None)] *)
Definition Database_init (typed : string) (host db user : string)
    (password : option string) : Database :=
  let self := mkDatabase host db user password None in
  set_password self (Some (get_password typed self)).

Section Methods.
Variable srv : server.

(** [psycopg2.connect(...)] *)
Definition connect (self : Database) (pw : string) : M (Database * world) nat :=
  λ '(s, w),
    if accepts srv (host self) (db self) (user self) pw
    then (inr (length w), (s, Connect (length w) :: w))
    else (inl OperationalError, (s, w)).

(** [connection.close()] *)
Definition conn_close (c : nat) : M (Database * world) unit :=
  modify (λ '(s, w), (s, Close c :: w)).

Definition assign_conn (c : option nat) : M (Database * world) unit :=
  modify (λ '(s, w), (set_conn s c, w)).

Definition open_db : M (Database * world) unit :=
  '(self, _) ← get;
  match conn self with
  | Some c => conn_close c
  | None => mret tt
  end;;
  match password self with
  | Some pw => c ← connect self pw; assign_conn (Some c)
  | None => mret tt
  end.

(** [connection.cursor()]; a cursor is named by its connection. *)
Definition conn_cursor (c : option nat) : M (Database * world) nat :=
  match c with
  | None => raise AttributeError
  | Some c =>
      '(_, w) ← get;
      if decide (c ∈ live w) then mret c else raise InterfaceError
  end.

Definition cursor : M (Database * world) nat :=
  '(self, _) ← get;
  match conn self with
  | None => open_db
  | Some _ => mret tt
  end;;
  '(self, _) ← get;
  conn_cursor (conn self).

Definition close : M (Database * world) unit :=
  '(self, _) ← get;
  match conn self with
  | Some c => conn_close c;; assign_conn None
  | None => mret tt
  end.

(** [cur.execute(sql)], with the rows the cursor then yields. *)
Definition execute (sql : query) : M (Database * world) (list row) :=
  cur ← cursor;
  match answer srv sql with
  | inl e => raise e
  | inr rows => mret rows
  end.
End Methods.

(** ** class DatabaseQuery(Database) *)

Record DatabaseQuery := mkDatabaseQuery {
  base : Database;
  schema : string;
  tbls : option string;
  xcols : option string;
  tbl_list : list string
}.

Definition set_base (self : DatabaseQuery) (b : Database) : DatabaseQuery :=
  mkDatabaseQuery b (schema self) (tbls self) (xcols self) (tbl_list self).
Definition set_tbls (self : DatabaseQuery) (t : option string) : DatabaseQuery :=
  mkDatabaseQuery (base self) (schema self) t (xcols self) (tbl_list self).
Definition set_tbl_list (self : DatabaseQuery) (l : list string) : DatabaseQuery :=
  mkDatabaseQuery (base self) (schema self) (tbls self) (xcols self) l.

(** An inherited method runs on the [Database] part of the object. *)
Definition inherited {A} (m : M (Database * world) A) : M (DatabaseQuery * world) A :=
  λ '(self, w),
    let '(r, (b, w')) := m (base self, w) in (r, (set_base self b, w')).

Section QueryMethods.
Variable srv : server.

Definition match_tbl (tbl : string) : M (DatabaseQuery * world) (list string) :=
  '(self, _) ← get;
  cur ← inherited (execute srv (SelectTablesILike (schema self) tbl));
  mret (col0 <$> cur).

Definition verify_tbl (tbl : string) : M (DatabaseQuery * world) bool :=
  '(self, _) ← get;
  c ← inherited (execute srv (SelectTableEq (schema self) tbl));
  match c with
  | [] => mret false
  | _ :: _ => mret true
  end.

(** The body of the loop over the requested entries. *)
Definition table_list_entry (tbl_list : list string) (tbl : string)
    : M (DatabaseQuery * world) (list string) :=
  tbl_list ← (if re_search_star tbl
              then let match_str := split "*" tbl in
                   let match_str := join "%" match_str in
                   found ← match_tbl match_str;
                   mret (tbl_list ++ found)
              else mret tbl_list);
  ok ← verify_tbl tbl;
  if ok : bool then mret (tbl_list ++ [tbl]) else mret tbl_list.

Definition table_list : M (DatabaseQuery * world) (list string) :=
  '(self, _) ← get;
  tbl_list ←
    match tbls self with
    | None =>
        tables ← inherited (execute srv (SelectTables (schema self)));
        mret (col0 <$> tables)
    | Some t =>
        modify (λ '(self, w), (set_tbls self (Some (strip t)), w));;
        let tables := split "," (strip t) in
        for_each tables table_list_entry []
    end;
  mret (sorted (list_set tbl_list)).

Definition column_list (tbl : string) : M (DatabaseQuery * world) (list string) :=
  '(self, _) ← get;
  cols ← inherited (execute srv (SelectColumns (schema self) tbl));
  match xcols self with
  | None => mret (col0 <$> cols)
  | Some x => mret (filter (λ c, c ∉ split "," x) (col0 <$> cols))
  end.

(** [DatabaseQuery.__init__(host, db, user, schema, tbls, xcols=None)];
    [tbl_list] does not exist on the object until [table_list] has
    returned. *)
Definition DatabaseQuery_init (typed : string) (host db user schema : string)
    (tbls xcols : option string) : M world DatabaseQuery :=
  λ w,
    let self := mkDatabaseQuery (Database_init typed host db user None)
                  schema tbls (strip <$> xcols) [] in
    match table_list (self, w) with
    | (inl e, (_, w')) => (inl e, w')
    | (inr l, (self', w')) => (inr (set_tbl_list self' l), w')
    end.
End QueryMethods.

(** ** class OdsFile, over odfpy's element tree

    odfpy elements are mutable objects that refer to their children.  The
    store holds every element created so far; an element is named by its
    position in the store, and [addElement] appends to the parent's
    children in place, so a row attached to a table before its cells are
    added still shows them through the table. *)

Inductive element_kind :=
| Spreadsheet                               (* wkbook.spreadsheet *)
| Table (name : string)                     (* odf.table.Table(name=...) *)
| TableRow                                  (* odf.table.TableRow() *)
| TableCell (valuetype stringvalue : string).

Record element := Element { kind : element_kind; children : list nat }.

Record OdsFile := mkOdsFile {
  filename : option string;
  wkbook : option nat
}.

Definition new_element (k : element_kind) : M (OdsFile * list element) nat :=
  λ '(self, st), (inr (length st), (self, st ++ [Element k []])).

Definition attach (child : nat) (e : element) : element :=
  Element (kind e) (children e ++ [child]).

(** [parent.addElement(child)]; the three uses in the script respect the
    grammar odfpy checks (table in spreadsheet, row in table, cell in row). *)
Definition addElement (parent child : nat) : M (OdsFile * list element) unit :=
  modify (λ '(self, st), (self, alter (attach child) parent st)).

(** [OdsFile.__init__] *)
Definition OdsFile_init : OdsFile := mkOdsFile None None.

Definition open (name : string) : M (OdsFile * list element) unit :=
  modify (λ '(self, st), (mkOdsFile (Some name) (wkbook self), st));;
  root ← new_element Spreadsheet;
  modify (λ '(self, st), (mkOdsFile (filename self) (Some root), st)).

Definition new_sheet (sheetname : string) : M (OdsFile * list element) nat :=
  new_element (Table sheetname).

Definition add_row_to_sheet (datarow : list string) (odf_table : nat)
    : M (OdsFile * list element) unit :=
  tr ← new_element TableRow;
  addElement odf_table tr;;
  for_each datarow
    (λ _ item, cell ← new_element (TableCell "string" item); addElement tr cell) tt.

Definition add_sheet (odf_table : nat) : M (OdsFile * list element) unit :=
  '(self, _) ← get;
  match wkbook self with
  | None => raise AttributeError
  | Some root => addElement root odf_table
  end.

(** What a spreadsheet reader finds in the tree: the sheets in order, each
    with its name and rows, each row with its cells. *)
Record cell := Cell { cell_type : string; cell_value : string }.
Record sheet := Sheet { sheet_name : string; sheet_rows : list (list cell) }.

Definition children_of (st : list element) (i : nat) : list element :=
  match st !! i with
  | Some e => omap (λ j, st !! j) (children e)
  | None => []
  end.

Definition cells_of (st : list element) (r : nat) : list cell :=
  omap (λ e, match kind e with TableCell t v => Some (Cell t v) | _ => None end)
       (children_of st r).

Definition rows_of (st : list element) (t : nat) : list (list cell) :=
  match st !! t with
  | Some e =>
      omap (λ j, match kind <$> st !! j with
                 | Some TableRow => Some (cells_of st j)
                 | _ => None
                 end) (children e)
  | None => []
  end.

Definition sheets_of (st : list element) (root : nat) : list sheet :=
  match st !! root with
  | Some e =>
      omap (λ j, match kind <$> st !! j with
                 | Some (Table n) => Some (Sheet n (rows_of st j))
                 | _ => None
                 end) (children e)
  | None => []
  end.

(** [save_close] on a file that [io.open] can open for writing: the file
    name and the document that is written to it. *)
Definition save_close : M (OdsFile * list element) (string * list sheet) :=
  '(self, st) ← get;
  match filename self with
  | None => raise TypeError
  | Some f =>
      match wkbook self with
      | None => raise AttributeError
      | Some root => mret (f, sheets_of st root)
      end
  end.

(** [save_close] over a file system: [io.open(name, "wb")] raises
    [OSError] where the file cannot be opened for writing (a directory
    that does not exist, no permission), before anything is written. *)
Definition save_close_on (writable : string → bool)
    : M (OdsFile * list element) (string * list sheet) :=
  '(self, st) ← get;
  match filename self with
  | None => raise TypeError
  | Some f =>
      if writable f then
        match wkbook self with
        | None => raise AttributeError
        | Some root => mret (f, sheets_of st root)
        end
      else raise OSError
  end.

(** ** The script *)

Definition on_db {A} (m : M (DatabaseQuery * world) A)
    : M ((DatabaseQuery * world) * (OdsFile * list element)) A :=
  λ '(d, o), let '(r, d') := m d in (r, (d', o)).

Definition on_ods {A} (m : M (OdsFile * list element) A)
    : M ((DatabaseQuery * world) * (OdsFile * list element)) A :=
  λ '(d, o), let '(r, o') := m o in (r, (d, o')).

Section Script.
Variable srv : server.

(** The loop [for tbl in db_inst.tbl_list]. *)
Definition write_sheets (tables : list string)
    : M ((DatabaseQuery * world) * (OdsFile * list element)) unit :=
  for_each tables
    (λ _ tbl,
       tbl_sheet ← on_ods (new_sheet tbl);
       columns ← on_db (column_list srv tbl);
       on_ods (add_row_to_sheet columns tbl_sheet);;
       on_ods (add_sheet tbl_sheet)) tt.

(** The [__main__] block, from the parsed arguments on.  It returns the
    file written and leaves the history of connections. *)
Definition main (typed : string) (a_host a_database a_username a_schema : string)
    (a_table_list a_x_columns : option string) (output_file : string)
    : M world (string * list sheet) :=
  λ w,
    match DatabaseQuery_init srv typed a_host a_database a_username a_schema
            a_table_list a_x_columns w with
    | (inl e, w') => (inl e, w')
    | (inr db_inst, w') =>
        let body :=
          on_ods (open output_file);;
          write_sheets (tbl_list db_inst);;
          out ← on_ods save_close;
          on_db (inherited (close));;
          mret out in
        match body ((db_inst, w'), (OdsFile_init, [])) with
        | (r, ((_, w''), _)) => (r, w'')
        end
    end.

(** The [__main__] block over a file system. *)
Definition main_on (writable : string → bool) (typed : string)
    (a_host a_database a_username a_schema : string)
    (a_table_list a_x_columns : option string) (output_file : string)
    : M world (string * list sheet) :=
  λ w,
    match DatabaseQuery_init srv typed a_host a_database a_username a_schema
            a_table_list a_x_columns w with
    | (inl e, w') => (inl e, w')
    | (inr db_inst, w') =>
        let body :=
          on_ods (open output_file);;
          write_sheets (tbl_list db_inst);;
          out ← on_ods (save_close_on writable);
          on_db (inherited (close));;
          mret out in
        match body ((db_inst, w'), (OdsFile_init, [])) with
        | (r, ((_, w''), _)) => (r, w'')
        end
    end.
End Script.

(** ** The catalog a server answers from

    [information_schema] is modelled by the list of its tables, each with
    its schema, its name and its columns in the order the catalog returns
    them. *)

Record table_def := TableDef {
  t_schema : string;
  t_name : string;
  t_columns : list string
}.

Definition tables_in (cat : list table_def) (s : string) : list string :=
  t_name <$> filter (λ d, t_schema d = s) cat.

Definition columns_of (cat : list table_def) (s t : string) : list string :=
  filter (λ d, t_schema d = s ∧ t_name d = t) cat ≫= t_columns.

(** A value spliced between single quotes reads as itself only if it has
    no single quote and no backslash (the escape character of SQL string
    constants and of LIKE patterns). *)
Fixpoint sql_safe (s : string) : bool :=
  match s with
  | "" => true
  | String c s' =>
      if decide (c = "'"%char ∨ c = "092"%char) then false else sql_safe s'
  end.

Definition lower (c : ascii) : ascii :=
  let n := nat_of_ascii c in
  if (65 <=? n)%nat && (n <=? 90)%nat then ascii_of_nat (n + 32) else c.

Fixpoint lower_str (s : string) : string :=
  match s with
  | "" => ""
  | String c s' => String (lower c) (lower_str s')
  end.

(** [t LIKE p] for a pattern without escapes: [%] stands for any run of
    characters, [_] for any one character. *)
Fixpoint like (p t : string) : bool :=
  match p with
  | "" => match t with "" => true | _ => false end
  | String c p' =>
      if decide (c = "%"%char) then
        (fix any (t : string) : bool :=
           like p' t || match t with "" => false | String _ t' => any t' end) t
      else
        match t with
        | "" => false
        | String d t' =>
            (bool_decide (c = "_"%char) || bool_decide (c = d)) && like p' t'
        end
  end.

(** [t ILIKE p]: LIKE on the lower-cased text and pattern. *)
Definition ilike (t p : string) : bool := like (lower_str p) (lower_str t).

(** [serves srv cat]: on safe values the server answers the four queries
    from the catalog [cat].  The order of table names is the server's. *)
Record serves (srv : server) (cat : list table_def) : Prop := {
  serves_tables s :
    sql_safe s →
    ∃ rows, answer srv (SelectTables s) = inr rows ∧
            col0 <$> rows ≡ₚ tables_in cat s;
  serves_ilike s p :
    sql_safe s → sql_safe p →
    ∃ rows, answer srv (SelectTablesILike s p) = inr rows ∧
            col0 <$> rows ≡ₚ filter (λ t, ilike t p) (tables_in cat s);
  serves_eq s t :
    sql_safe s → sql_safe t →
    ∃ rows, answer srv (SelectTableEq s t) = inr rows ∧
            (rows = [] ↔ t ∉ tables_in cat s);
  serves_columns s t :
    sql_safe s → sql_safe t →
    ∃ rows, answer srv (SelectColumns s t) = inr rows ∧
            col0 <$> rows = columns_of cat s t
}.

(** ** Names as the catalog compares them

    The catalog of PostgreSQL 12 and later keeps schema and table names
    in columns of type [name]: a constant compared with [=] to such a
    column is cut to 63 bytes first, so only a value of at most 63 bytes
    is compared as written.  The pattern of [ilike] is a text and is not
    cut. *)

(** The length of a string in bytes, encoded in UTF-8. *)
Fixpoint byte_length (s : string) : nat :=
  match s with
  | "" => 0
  | String c s' => (if (nat_of_ascii c <? 128)%nat then 1 else 2) + byte_length s'
  end.

(** A value that reads as itself between single quotes and is compared as
    written. *)
Definition plain (v : string) : bool := sql_safe v && (byte_length v <=? 63)%nat.

(** [serves_plain srv cat]: the server answers the four queries from the
    catalog [cat] when the schema and the table name compared with [=]
    are plain and the pattern is safe; nothing is said of other texts. *)
Record serves_plain (srv : server) (cat : list table_def) : Prop := {
  plain_tables s :
    plain s →
    ∃ rows, answer srv (SelectTables s) = inr rows ∧
            col0 <$> rows ≡ₚ tables_in cat s;
  plain_ilike s p :
    plain s → sql_safe p →
    ∃ rows, answer srv (SelectTablesILike s p) = inr rows ∧
            col0 <$> rows ≡ₚ filter (λ t, ilike t p) (tables_in cat s);
  plain_eq s t :
    plain s → plain t →
    ∃ rows, answer srv (SelectTableEq s t) = inr rows ∧
            (rows = [] ↔ t ∉ tables_in cat s);
  plain_columns s t :
    plain s → plain t →
    ∃ rows, answer srv (SelectColumns s t) = inr rows ∧
            col0 <$> rows = columns_of cat s t
}.

(** A server that answers from [cat] and rejects every unsafe text. *)
Definition catalog_answer (cat : list table_def) (q : query) : exn + list row :=
  let name_rows (l : list string) := (λ n, Row n []) <$> l in
  let guard (vs : list string) (rows : list row) :=
    if forallb sql_safe vs then inr rows
    else inl (DatabaseError "syntax error") in
  match q with
  | SelectTables s =>
      guard [s] (name_rows (merge_sort String.le (tables_in cat s)))
  | SelectTablesILike s p =>
      guard [s; p] (name_rows (filter (λ t, ilike t p) (tables_in cat s)))
  | SelectTableEq s t =>
      guard [s; t]
        ((λ d, Row "postgres" [t_schema d; t_name d]) <$>
           filter (λ d, t_schema d = s ∧ t_name d = t) cat)
  | SelectColumns s t =>
      guard [s; t] (name_rows (columns_of cat s t))
  end.

Definition catalog_server (pw : string) (cat : list table_def) : server :=
  Server (λ _ _ _ p, bool_decide (p = pw)) (catalog_answer cat).

(** The object [table_list] and [column_list] run on once the arguments
    have been stored, and a state in which its queries can be sent. *)
Definition query_object (pw : string) (host db user schema : string)
    (tbls xcols : option string) : DatabaseQuery :=
  mkDatabaseQuery (Database_init pw host db user None) schema tbls (strip <$> xcols) [].

Definition can_query (srv : server) (self : Database) (w : world) : Prop :=
  match conn self with
  | Some c => c ∈ live w
  | None =>
      match password self with
      | Some pw => accepts srv (host self) (db self) (user self) pw = true
      | None => False
      end
  end.

(** ** Vocabulary of the statements *)

(** A string of whitespace only (possibly empty). *)
Fixpoint blank (s : string) : bool :=
  match s with
  | "" => true
  | String c s' => isspace c && blank s'
  end.

(** The entry with every [*] turned into [%]. *)
Fixpoint star_to_percent (s : string) : string :=
  match s with
  | "" => ""
  | String c s' =>
      String (if decide (c = "*"%char) then "%"%char else c) (star_to_percent s')
  end.

(** Calls a client can make on a [Database] object, run one after the
    other; a call that raises leaves the object as it is at that point and
    the client goes on. *)
Inductive call := CallOpenDb | CallCursor | CallClose | CallExecute (sql : query).

Definition run_call (srv : server) (c : call) (st : Database * world)
    : Database * world :=
  match c with
  | CallOpenDb => snd (open_db srv st)
  | CallCursor => snd (cursor srv st)
  | CallClose => snd (close st)
  | CallExecute sql => snd (execute srv sql st)
  end.

Definition run_calls (srv : server) (cs : list call) (st : Database * world)
    : Database * world :=
  foldl (λ st c, run_call srv c st) st cs.

(** At no moment of the history were two connections open. *)
Fixpoint never_two (w : world) : Prop :=
  match w with
  | [] => True
  | _ :: w' => size (live w) ≤ 1 ∧ never_two w'
  end.

(** Every connection that is open is the one the object holds. *)
Definition holds_all_live (st : Database * world) : Prop :=
  never_two st.2 ∧ ∀ c, c ∈ live st.2 → conn st.1 = Some c.

(** The events [open_db] adds: it closes the connection held, if any, and
    then connects if the server accepts. *)
Definition closing (self : Database) : list event :=
  match conn self with
  | Some c => [Close c]
  | None => []
  end.

(** The text cell the writer makes of a column name. *)
Definition text_cell (name : string) : cell := Cell "string" name.

(** The state after a query was sent from a state in which queries can be
    sent: the connection it opened, if there was none. *)
Definition connected (st : Database * world) : Database * world :=
  match conn st.1 with
  | Some _ => st
  | None => (set_conn st.1 (Some (length st.2)), Connect (length st.2) :: st.2)
  end.

Definition connected_q (st : DatabaseQuery * world) : DatabaseQuery * world :=
  (set_base st.1 (connected (base st.1, st.2)).1, (connected (base st.1, st.2)).2).

(** Entry [e] of the request selects table [t]: as its literal name, or
    as a match of its pattern when it has a wildcard. *)
Definition selects (e t : string) : Prop :=
  t = e ∨ (re_search_star e ∧ ilike t (star_to_percent e)).

(** The object holds a connection that is open. *)
Definition is_connected (self : Database) (w : world) : Prop :=
  ∃ c, conn self = Some c ∧ c ∈ live w.

(** The columns [column_list] keeps of a table of the catalog. *)
Definition resolved_columns (cat : list table_def) (self : DatabaseQuery)
    (tbl : string) : list string :=
  match xcols self with
  | None => columns_of cat (schema self) tbl
  | Some x => filter (λ c, c ∉ split "," x) (columns_of cat (schema self) tbl)
  end.

(** What one entry of the request contributes, read off the server's
    answers: the names returned for its pattern if it has a wildcard, and
    the entry itself if a table of that name is found. *)
Definition entry_names (srv : server) (schema e : string) : list string :=
  (if re_search_star e
   then match answer srv (SelectTablesILike schema (join "%" (split "*" e))) with
        | inr rows => col0 <$> rows
        | inl _ => []
        end
   else []) ++
  match answer srv (SelectTableEq schema e) with
  | inr (_ :: _) => [e]
  | _ => []
  end.

(** The columns [column_list] keeps of what the server answers for a
    table. *)
Definition kept_columns (srv : server) (self : DatabaseQuery) (tbl : string)
    : list string :=
  let cols := match answer srv (SelectColumns (schema self) tbl) with
              | inr rows => col0 <$> rows
              | inl _ => []
              end in
  match xcols self with
  | None => cols
  | Some x => filter (λ c, c ∉ split "," x) cols
  end.

(** The sheet of a table whose kept columns are [cs]. *)
Definition sheet_of_columns (t : string) (cs : list string) : sheet :=
  Sheet t [text_cell <$> cs].

(** The elements the writer adds for table [t] with columns [cs] to a
    store of [n] elements: the table, its row, the cells. *)
Definition cell_element (c : string) : element := Element (TableCell "string" c) [].

Definition sheet_elements (n : nat) (t : string) (cs : list string) : list element :=
  Element (Table t) [S n] ::
  Element TableRow (seq (S (S n)) (length cs)) ::
  (cell_element <$> cs).

(** No element has the root or an element outside the store as a child. *)
Definition closed (root : nat) (st : list element) : Prop :=
  ∀ i e k, st !! i = Some e → k ∈ children e → k ≠ root ∧ k < length st.

(** The store once the writer has handled table [t] with columns [cs]. *)
Definition written (st : list element) (root : nat) (t : string) (cs : list string)
    : list element :=
  alter (attach (length st)) root (st ++ sheet_elements (length st) t cs).

(** The sheet expected for a table. *)
Definition sheet_for (cat : list table_def) (self : DatabaseQuery) (t : string) : sheet :=
  Sheet t [text_cell <$> resolved_columns cat self t].

(** ** Sample catalogs *)

Definition shop : list table_def :=
  [TableDef "public" "orders" ["id"; "name"; "created_at"; "total"];
   TableDef "public" "x_a" ["col1"; "col2"];
   TableDef "public" "X_b" ["col3"];
   TableDef "public" "a*b" ["col1"];
   TableDef "audit" "x_c" ["col3"]].

Definition two_tables : list table_def :=
  [TableDef "public" "a" ["col1"; "col2"];
   TableDef "public" "b" ["col3"]].

Definition shop_server : server := catalog_server "pw" shop.
Definition two_tables_server : server := catalog_server "pw" two_tables.

(** The object of a run against [shop_server], before [table_list]. *)
Definition shop_query (tbls xcols : option string) : DatabaseQuery :=
  query_object "pw" "localhost" "shopdb" "alice" "public" tbls xcols.

(** The server answers the queries [table_list] sends for entry [e]: the
    lookup of the literal name, and the pattern if [e] has a wildcard. *)
Definition answered (srv : server) (schema e : string) : Prop :=
  (∃ rows, answer srv (SelectTableEq schema e) = inr rows) ∧
  (re_search_star e →
   ∃ rows, answer srv (SelectTablesILike schema (join "%" (split "*" e))) = inr rows).

(** A catalog with a table whose name holds a single quote (a legal
    quoted identifier). *)
Definition quoted : list table_def :=
  [TableDef "public" "orders" ["id"; "total"];
   TableDef "public" "o'x" ["id"]].

Definition quoted_server : server := catalog_server "pw" quoted.

(** The first [n] bytes of a string, no character being split. *)
Fixpoint clip (n : nat) (s : string) : string :=
  match s with
  | "" => ""
  | String c s' =>
      let k := if (nat_of_ascii c <? 128)%nat then 1 else 2 in
      if (k <=? n)%nat then String c (clip (n - k) s') else ""
  end.

(** A constant read as a value of type [name]. *)
Definition name_literal (v : string) : string := clip 63 v.

(** A server that answers from [cat] as PostgreSQL 12 does: the constants
    compared with [=] are read as names.  It rejects every unsafe text. *)
Definition catalog_answer_cut (cat : list table_def) (q : query) : exn + list row :=
  let name_rows (l : list string) := (λ n, Row n []) <$> l in
  let guard (vs : list string) (rows : list row) :=
    if forallb sql_safe vs then inr rows
    else inl (DatabaseError "syntax error") in
  match q with
  | SelectTables s =>
      guard [s] (name_rows (merge_sort String.le (tables_in cat (name_literal s))))
  | SelectTablesILike s p =>
      guard [s; p]
        (name_rows (filter (λ t, ilike t p) (tables_in cat (name_literal s))))
  | SelectTableEq s t =>
      guard [s; t]
        ((λ d, Row "postgres" [t_schema d; t_name d]) <$>
           filter (λ d, t_schema d = name_literal s ∧ t_name d = name_literal t) cat)
  | SelectColumns s t =>
      guard [s; t] (name_rows (columns_of cat (name_literal s) (name_literal t)))
  end.

Definition catalog_server_cut (pw : string) (cat : list table_def) : server :=
  Server (λ _ _ _ p, bool_decide (p = pw)) (catalog_answer_cut cat).

(** A name of [n] letters [a]. *)
Fixpoint letters (n : nat) : string :=
  match n with
  | 0 => ""
  | S n' => String "a" (letters n')
  end.

(** A catalog whose one table has a name of the greatest length PostgreSQL
    allows, 63 bytes. *)
Definition archive : list table_def :=
  [TableDef "public" (letters 63) ["id"]].

Definition archive_server : server := catalog_server_cut "pw" archive.

(** * Properties *)

(** ** The model at work *)

Example strip_ex : strip "  e_*, x_a " = "e_*, x_a".
Proof. reflexivity. Qed.

Example split_ex : split "," "a,,b," = ["a"; ""; "b"; ""].
Proof. reflexivity. Qed.

Example split_empty_ex : split "," "" = [""].
Proof. reflexivity. Qed.

Example join_split_ex : join "%" (split "*" "*lab*") = "%lab%".
Proof. reflexivity. Qed.

Example sorted_set_ex :
  sorted (list_set ["x_b"; "orders"; "x_a"; "x_b"]) = ["orders"; "x_a"; "x_b"].
Proof. vm_compute. reflexivity. Qed.

Example ilike_ex :
  ilike "X_b" "x_%" = true ∧ ilike "xab" "x_%" = true ∧ ilike "orders" "x_%" = false.
Proof. vm_compute. auto. Qed.

(** A pattern and a literal entry together. *)
Example table_list_ex :
  (table_list shop_server (shop_query (Some "x_*,orders") None, [])).1
  = inr ["X_b"; "orders"; "x_a"].
Proof. vm_compute. reflexivity. Qed.

(** A wrong password: the first query fails to connect. *)
Example table_list_refused_ex :
  (table_list shop_server
     (query_object "guess" "localhost" "shopdb" "alice" "public" None None, [])).1
  = inl OperationalError.
Proof. vm_compute. reflexivity. Qed.

(** A quote in an entry: the sample server rejects the text. *)
Example table_list_quote_ex :
  (table_list shop_server (shop_query (Some "orders,x'") None, [])).1
  = inl (DatabaseError "syntax error").
Proof. vm_compute. reflexivity. Qed.

(** ** Construction of the connection manager *)

(** C4: the constructor stores the caller's password and then replaces it,
    unconditionally, by what the prompt returns; a password passed in is
    not used. *)
Theorem Database_init_discards_supplied_password typed h d u supplied :
  password (Database_init typed h d u (Some supplied)) = Some typed.
Proof. reflexivity. Qed.

Example Database_init_supplied_ex :
  password (Database_init "typed" "localhost" "shopdb" "alice" (Some "s3cret"))
  = Some "typed".
Proof. reflexivity. Qed.

(** ** Strings *)

Lemma app_cons c s t : String c s +:+ t = String c (s +:+ t).
Proof. reflexivity. Qed.

Lemma app_empty t : "" +:+ t = t.
Proof. reflexivity. Qed.

Lemma lstrip_blank s : blank s → lstrip s = "".
Proof.
  induction s as [|c s IH]; simpl; [done|].
  intros [Hc Hs]%andb_True. rewrite (Is_true_eq_true _ Hc). auto.
Qed.

Lemma lstrip_app ws s : blank ws → lstrip (ws +:+ s) = lstrip s.
Proof.
  induction ws as [|c ws IH]; [done|]. simpl.
  intros [Hc Hs]%andb_True. rewrite ?app_cons. simpl.
  rewrite (Is_true_eq_true _ Hc). auto.
Qed.

Lemma rstrip_blank s : blank s → rstrip s = "".
Proof.
  induction s as [|c s IH]; simpl; [done|].
  intros [Hc Hs]%andb_True. rewrite IH by done.
  by rewrite (Is_true_eq_true _ Hc).
Qed.

Lemma rstrip_app_blank s ws : blank ws → rstrip (s +:+ ws) = rstrip s.
Proof.
  intros Hws. induction s as [|c s IH].
  - rewrite app_empty. by apply rstrip_blank.
  - rewrite app_cons. simpl. by rewrite IH.
Qed.

Lemma rstrip_blank_app ws s :
  blank ws → rstrip s ≠ "" → rstrip (ws +:+ s) = ws +:+ rstrip s.
Proof.
  intros Hws Hs. induction ws as [|c ws IH]; [done|].
  simpl in Hws. apply andb_True in Hws as [_ Hws].
  rewrite !app_cons. simpl. rewrite IH by done.
  destruct (ws +:+ rstrip s) eqn:E; [|done].
  destruct ws; [|done]. by rewrite app_empty in E.
Qed.

Lemma rstrip_blank_app_empty ws s :
  blank ws → rstrip s = "" → rstrip (ws +:+ s) = "".
Proof.
  intros Hws Hs. induction ws as [|c ws IH]; [done|].
  simpl in Hws. apply andb_True in Hws as [Hc Hws].
  rewrite app_cons. simpl. rewrite IH by done.
  by rewrite (Is_true_eq_true _ Hc).
Qed.

Lemma strip_blank s : blank s → strip s = "".
Proof. intros H. unfold strip. by rewrite rstrip_blank. Qed.

Lemma strip_app l s r :
  blank l → blank r → strip (l +:+ s +:+ r) = strip s.
Proof.
  intros Hl Hr. unfold strip.
  destruct (decide (rstrip (s +:+ r) = "")) as [E|E].
  - rewrite rstrip_blank_app_empty by done.
    rewrite rstrip_app_blank in E by done. by rewrite E.
  - rewrite rstrip_blank_app by done.
    rewrite lstrip_app by done. by rewrite rstrip_app_blank.
Qed.

Lemma split_not_nil c s : split c s ≠ [].
Proof. destruct s as [|d s]; simpl; [done|]. case_decide; [done|]. by destruct (split c s). Qed.

Lemma split_no_sep c s : (∀ d, d ∈ String.list_ascii_of_string s → d ≠ c) → split c s = [s].
Proof.
  induction s as [|d s IH]; simpl; [done|]. intros H.
  case_decide as Hd; [by destruct (H d); [left|]|].
  rewrite IH; [done|]. intros e He. apply H. by right.
Qed.

Lemma sql_safe_cons c s : sql_safe (String c s) → sql_safe s.
Proof. simpl. by case_decide. Qed.

Lemma sql_safe_lstrip s : sql_safe s → sql_safe (lstrip s).
Proof.
  induction s as [|c s IH]; [done|]. intros H. simpl.
  destruct (isspace c); [|done]. eauto using sql_safe_cons.
Qed.

Lemma sql_safe_rstrip s : sql_safe s → sql_safe (rstrip s).
Proof.
  induction s as [|c s IH]; [done|]. simpl. case_decide as Hc; [done|].
  intros H. specialize (IH H). destruct (rstrip s) eqn:E.
  - destruct (isspace c); [done|]. simpl. by rewrite decide_False.
  - simpl. rewrite decide_False by done. exact IH.
Qed.

Lemma sql_safe_strip s : sql_safe s → sql_safe (strip s).
Proof. intros. by apply sql_safe_lstrip, sql_safe_rstrip. Qed.

Lemma sql_safe_split c s : sql_safe s → Forall (λ e, sql_safe e) (split c s).
Proof.
  induction s as [|d s IH]; simpl.
  - by repeat constructor.
  - case_decide as Hd; [done|]. intros H. specialize (IH H).
    case_decide.
    + by constructor.
    + destruct (split c s) as [|f fs]; [by repeat constructor; simpl; rewrite decide_False|].
      inversion_clear IH. constructor; [|done]. simpl. by rewrite decide_False.
Qed.

Lemma join_split_star e : join "%" (split "*" e) = star_to_percent e.
Proof.
  induction e as [|c e IH]; [done|]. simpl. case_decide as Hc.
  - rewrite <- IH. pose proof (split_not_nil "*" e).
    by destruct (split "*" e).
  - rewrite <- IH. pose proof (split_not_nil "*" e).
    destruct (split "*" e) as [|f [|g fs]]; done.
Qed.

Lemma sql_safe_star_to_percent e : sql_safe e → sql_safe (star_to_percent e).
Proof.
  induction e as [|c e IH]; [done|]. simpl.
  destruct (decide (c = "*"%char)) as [->|Hs]; [exact IH|].
  destruct (decide _); [done|exact IH].
Qed.

Lemma re_search_star_spec s : re_search_star s ↔ "*"%char ∈ String.list_ascii_of_string s.
Proof.
  induction s as [|c s IH]; simpl.
  - split; [done|]. by intros ?%elem_of_nil.
  - case_decide as Hc.
    + subst. split; [|done]. intros _. by left.
    + rewrite IH. split; [by right|]. by intros [?|?]%elem_of_cons.
Qed.

(** ** [sorted(list(set(l)))] *)

Lemma elem_of_list_set x l : x ∈ list_set l ↔ x ∈ l.
Proof. unfold list_set. by rewrite elem_of_elements, elem_of_list_to_set. Qed.

Lemma NoDup_list_set l : NoDup (list_set l).
Proof. unfold list_set. apply NoDup_elements. Qed.

Lemma list_set_NoDup_perm l : NoDup l → list_set l ≡ₚ l.
Proof. intros. unfold list_set. by apply elements_list_to_set. Qed.

Lemma sorted_perm l : sorted l ≡ₚ l.
Proof. apply merge_sort_Permutation. Qed.

Lemma sorted_StronglySorted l : StronglySorted String.le (sorted l).
Proof. apply StronglySorted_merge_sort; apply _. Qed.

Lemma elem_of_sorted_list_set x l : x ∈ sorted (list_set l) ↔ x ∈ l.
Proof. by rewrite sorted_perm, elem_of_list_set. Qed.

Lemma NoDup_sorted_list_set l : NoDup (sorted (list_set l)).
Proof. rewrite sorted_perm. apply NoDup_list_set. Qed.

(** The order in which the set hands out its elements does not show in
    the sorted list. *)
Lemma sorted_order_irrelevant l1 l2 : l1 ≡ₚ l2 → sorted l1 = sorted l2.
Proof.
  intros H. apply (StronglySorted_unique String.le); try apply sorted_StronglySorted.
  by rewrite !sorted_perm.
Qed.

Lemma sorted_proper l1 l2 :
  (∀ x, x ∈ l1 ↔ x ∈ l2) → sorted (list_set l1) = sorted (list_set l2).
Proof.
  intros H. apply sorted_order_irrelevant, NoDup_Permutation; try apply NoDup_list_set.
  intros x. by rewrite !elem_of_list_set.
Qed.

(** ** Sending queries *)

Ltac run := unfold mbind, M_bind, mret, M_ret, get, modify, raise; simpl.
Ltac step := unfold mbind, M_bind, mret, M_ret, get, modify, raise; cbv beta iota zeta.

Lemma can_query_connected srv st :
  can_query srv st.1 st.2 → can_query srv (connected st).1 (connected st).2.
Proof.
  destruct st as [self w]. unfold can_query, connected. simpl.
  destruct (conn self) eqn:E; simpl; [by rewrite E|]. set_solver.
Qed.

Lemma connected_idemp srv st :
  can_query srv st.1 st.2 → connected (connected st) = connected st.
Proof.
  destruct st as [self w]. unfold connected. simpl.
  by destruct (conn self) eqn:E; simpl; [rewrite E|].
Qed.

Lemma execute_connected srv q self w :
  can_query srv self w →
  execute srv q (self, w) = (answer srv q, connected (self, w)).
Proof.
  unfold can_query, execute, cursor, open_db, connected, conn_cursor, connect,
    assign_conn. run.
  destruct (conn self) as [c|] eqn:E; run.
  - rewrite E. intros Hc. rewrite decide_True by done.
    by destruct (answer srv q).
  - destruct (password self) as [pw|]; [|done]. intros ->. run.
    rewrite E. simpl. rewrite decide_True by set_solver.
    by destruct (answer srv q).
Qed.

Lemma inherited_execute srv q st :
  can_query srv (base st.1) st.2 →
  inherited (execute srv q) st = (answer srv q, connected_q st).
Proof.
  destruct st as [self w]. intros H. unfold inherited, connected_q.
  rewrite execute_connected by done. by destruct (connected _).
Qed.

Lemma connected_q_can_query srv st :
  can_query srv (base st.1) st.2 →
  can_query srv (base (connected_q st).1) (connected_q st).2.
Proof. intros H. apply (can_query_connected srv (base st.1, st.2) H). Qed.

Lemma connected_q_idemp srv st :
  can_query srv (base st.1) st.2 → connected_q (connected_q st) = connected_q st.
Proof.
  intros H. unfold connected_q at 1. simpl.
  pose proof (connected_idemp srv (base st.1, st.2) H) as E.
  destruct (connected (base st.1, st.2)) as [b w'] eqn:E'. simpl in *.
  rewrite E. unfold connected_q. rewrite E'. by destruct st as [[] ?].
Qed.

(** ** Resolution of tables against a catalog *)

Section Resolution.
Context (srv : server) (cat : list table_def) (Hsrv : serves srv cat).

Lemma match_tbl_serves p st :
  can_query srv (base st.1) st.2 → sql_safe (schema st.1) → sql_safe p →
  ∃ found, match_tbl srv p st = (inr found, connected_q st) ∧
           found ≡ₚ filter (λ t, ilike t p) (tables_in cat (schema st.1)).
Proof.
  intros Hq Hs Hp. destruct (serves_ilike _ _ Hsrv _ _ Hs Hp) as (rows & Ha & Hrows).
  exists (col0 <$> rows). split; [|done].
  destruct st as [self w]. unfold match_tbl. step.
  rewrite (inherited_execute srv _ (self, w)) by done.
  simpl in *. by rewrite Ha.
Qed.

Lemma verify_tbl_serves t st :
  can_query srv (base st.1) st.2 → sql_safe (schema st.1) → sql_safe t →
  verify_tbl srv t st =
    (inr (bool_decide (t ∈ tables_in cat (schema st.1))), connected_q st).
Proof.
  intros Hq Hs Ht. destruct (serves_eq _ _ Hsrv _ _ Hs Ht) as (rows & Ha & Hrows).
  destruct st as [self w]. unfold verify_tbl. step.
  rewrite (inherited_execute srv _ (self, w)) by done.
  simpl in *. rewrite Ha. destruct rows as [|r rows].
  - rewrite bool_decide_eq_false_2; [done|]. by apply Hrows.
  - rewrite bool_decide_eq_true_2; [done|].
    destruct (decide (t ∈ tables_in cat (schema self))) as [|Hn]; [done|].
    by apply Hrows in Hn.
Qed.

Lemma table_list_entry_serves acc e st :
  can_query srv (base st.1) st.2 → sql_safe (schema st.1) → sql_safe e →
  ∃ acc', table_list_entry srv acc e st = (inr acc', connected_q st) ∧
          ∀ t, t ∈ acc' ↔
               t ∈ acc ∨ (t ∈ tables_in cat (schema st.1) ∧ selects e t).
Proof.
  intros Hq Hs He. unfold table_list_entry, selects. rewrite join_split_star.
  pose proof (connected_q_can_query srv st Hq) as Hq'.
  pose proof (connected_q_idemp srv st Hq) as Hid.
  destruct (re_search_star e) eqn:Hstar.
  - destruct (match_tbl_serves (star_to_percent e) st) as (found & Hm & Hfound);
      [done|done|by apply sql_safe_star_to_percent|].
    step. rewrite Hm. simpl.
    rewrite verify_tbl_serves by done. rewrite Hid. simpl.
    case_bool_decide as Hin; eexists; (split; [done|]); intros t;
      rewrite ?elem_of_app, ?Hfound, ?list_elem_of_filter, ?list_elem_of_singleton;
      naive_solver.
  - step. rewrite verify_tbl_serves by done.
    case_bool_decide as Hin; eexists; (split; [done|]); intros t;
      rewrite ?elem_of_app, ?list_elem_of_singleton; naive_solver.
Qed.

Lemma for_each_entries es acc st :
  can_query srv (base st.1) st.2 → sql_safe (schema st.1) →
  Forall (λ e, sql_safe e) es →
  ∃ acc' st', for_each es (table_list_entry srv) acc st = (inr acc', st') ∧
    can_query srv (base st'.1) st'.2 ∧
    schema st'.1 = schema st.1 ∧ tbls st'.1 = tbls st.1 ∧
    ∀ t, t ∈ acc' ↔
         t ∈ acc ∨ (t ∈ tables_in cat (schema st.1) ∧ ∃ e, e ∈ es ∧ selects e t).
Proof.
  intros Hq Hs Hes. revert acc st Hq Hs.
  induction Hes as [|e es He Hes IH]; intros acc st Hq Hs.
  - exists acc, st. simpl. repeat split; try done; [by left|].
    intros [?|(_ & e & []%elem_of_nil & _)]; done.
  - destruct (table_list_entry_serves acc e st) as (acc1 & H1 & Hacc1); [done..|].
    destruct (IH acc1 (connected_q st)) as (acc' & st' & H2 & Hq' & Hs' & Ht' & Hacc');
      [by apply connected_q_can_query|done|].
    exists acc', st'. simpl. step. rewrite H1. split; [done|].
    split; [done|]. split; [done|]. split; [done|].
    intros t. rewrite Hacc', Hacc1. simpl. set_solver.
Qed.

Lemma table_list_requested self w req :
  can_query srv (base self) w → sql_safe (schema self) →
  tbls self = Some req → sql_safe req →
  ∃ l st', table_list srv (self, w) = (inr l, st') ∧
    can_query srv (base st'.1) st'.2 ∧
    StronglySorted String.le l ∧ NoDup l ∧
    ∀ t, t ∈ l ↔
         t ∈ tables_in cat (schema self) ∧
         ∃ e, e ∈ split "," (strip req) ∧ selects e t.
Proof.
  intros Hq Hs Hreq Hsafe. unfold table_list. step. rewrite Hreq.
  destruct (for_each_entries (split "," (strip req)) []
              (set_tbls self (Some (strip req)), w))
    as (acc & st' & Hloop & Hq' & _ & _ & Hacc);
    [done|done|by apply sql_safe_split, sql_safe_strip|].
  step. rewrite Hloop. exists (sorted (list_set acc)), st'.
  split; [done|]. split; [done|]. split; [apply sorted_StronglySorted|].
  split; [apply NoDup_sorted_list_set|].
  intros t. rewrite elem_of_sorted_list_set, Hacc. simpl. set_solver.
Qed.

Lemma table_list_all self w :
  can_query srv (base self) w → sql_safe (schema self) → tbls self = None →
  ∃ l st', table_list srv (self, w) = (inr l, st') ∧
    can_query srv (base st'.1) st'.2 ∧
    StronglySorted String.le l ∧ NoDup l ∧
    (∀ t, t ∈ l ↔ t ∈ tables_in cat (schema self)) ∧
    (NoDup (tables_in cat (schema self)) → l ≡ₚ tables_in cat (schema self)).
Proof.
  intros Hq Hs Hnone. unfold table_list. step. rewrite Hnone. step.
  destruct (serves_tables _ _ Hsrv _ Hs) as (rows & Ha & Hrows).
  rewrite (inherited_execute srv _ (self, w)) by done. rewrite Ha.
  eexists _, _. split; [done|].
  split; [by apply (connected_q_can_query srv (self, w))|].
  split; [apply sorted_StronglySorted|]. split; [apply NoDup_sorted_list_set|].
  split.
  - intros t. by rewrite elem_of_sorted_list_set, Hrows.
  - intros Hnd. rewrite sorted_perm, list_set_NoDup_perm; [done|]. by rewrite Hrows.
Qed.

Lemma column_list_serves tbl st :
  can_query srv (base st.1) st.2 → sql_safe (schema st.1) → sql_safe tbl →
  column_list srv tbl st =
    (inr match xcols st.1 with
         | None => columns_of cat (schema st.1) tbl
         | Some x => filter (λ c, c ∉ split "," x) (columns_of cat (schema st.1) tbl)
         end, connected_q st).
Proof.
  intros Hq Hs Ht. destruct (serves_columns _ _ Hsrv _ _ Hs Ht) as (rows & Ha & Hrows).
  destruct st as [self w]. unfold column_list. step.
  rewrite (inherited_execute srv _ (self, w)) by done.
  simpl in *. rewrite Ha, Hrows. by destruct (xcols self).
Qed.

End Resolution.

(** ** What a call that returns leaves behind, for any server *)

Lemma bind_inr {St A B} (m : M St A) (f : A → M St B) s b s' :
  (m ≫= f) s = (inr b, s') →
  ∃ a s1, m s = (inr a, s1) ∧ f a s1 = (inr b, s').
Proof.
  unfold mbind, M_bind. destruct (m s) as [[e|a] s1]; [done|]. eauto.
Qed.

Lemma is_connected_can_query srv self w : is_connected self w → can_query srv self w.
Proof. intros (c & Hc & Hl). unfold can_query. by rewrite Hc. Qed.

Lemma connected_is_connected self w : is_connected self w → connected (self, w) = (self, w).
Proof. intros (c & Hc & Hl). unfold connected. simpl. by rewrite Hc. Qed.

Lemma execute_inr srv q self w rows st' :
  execute srv q (self, w) = (inr rows, st') →
  answer srv q = inr rows ∧ is_connected st'.1 st'.2 ∧
  host st'.1 = host self ∧ db st'.1 = db self ∧ user st'.1 = user self ∧
  password st'.1 = password self.
Proof.
  unfold execute, cursor, open_db, conn_cursor, connect, assign_conn, is_connected.
  run. destruct (conn self) as [c|] eqn:E; run.
  - rewrite E. destruct (decide (c ∈ live w)); [|done].
    destruct (answer srv q); [done|]. intros [= <- <-]. simpl. eauto 10.
  - destruct (password self) as [pw|] eqn:Ep; run; repeat (rewrite E; simpl); [|done].
    destruct (accepts srv _ _ _ _); [|done]. simpl.
    rewrite decide_True by set_solver.
    destruct (answer srv q); [done|]. intros [= <- <-]. simpl.
    repeat split; try done. eexists. split; [done|]. set_solver.
Qed.

Lemma inherited_execute_inr srv q st rows st' :
  inherited (execute srv q) st = (inr rows, st') →
  answer srv q = inr rows ∧ is_connected (base st'.1) st'.2 ∧
  schema st'.1 = schema st.1 ∧ tbls st'.1 = tbls st.1 ∧ xcols st'.1 = xcols st.1.
Proof.
  destruct st as [self w]. unfold inherited.
  destruct (execute srv q (base self, w)) as [r [b w']] eqn:E.
  intros [= -> <-]. apply execute_inr in E as (? & ? & _). done.
Qed.

Lemma match_tbl_inr srv p st found st' :
  match_tbl srv p st = (inr found, st') →
  (∃ rows, answer srv (SelectTablesILike (schema st.1) p) = inr rows ∧
           found = col0 <$> rows) ∧
  is_connected (base st'.1) st'.2 ∧
  schema st'.1 = schema st.1 ∧ tbls st'.1 = tbls st.1 ∧ xcols st'.1 = xcols st.1.
Proof.
  destruct st as [self w]. unfold match_tbl. step.
  destruct (inherited _ _) as [[e|rows] st1] eqn:E; [done|].
  intros [= <- <-]. apply inherited_execute_inr in E as (? & ?). eauto.
Qed.

Lemma verify_tbl_inr srv t st ok st' :
  verify_tbl srv t st = (inr ok, st') →
  (∃ rows, answer srv (SelectTableEq (schema st.1) t) = inr rows ∧
           ok = match rows with [] => false | _ :: _ => true end) ∧
  is_connected (base st'.1) st'.2 ∧
  schema st'.1 = schema st.1 ∧ tbls st'.1 = tbls st.1 ∧ xcols st'.1 = xcols st.1.
Proof.
  destruct st as [self w]. unfold verify_tbl. step.
  destruct (inherited _ _) as [[e|rows] st1] eqn:E; [done|].
  apply inherited_execute_inr in E as (? & ?).
  destruct rows; intros [= <- <-]; eauto.
Qed.

Lemma table_list_entry_inr srv acc e st acc' st' :
  table_list_entry srv acc e st = (inr acc', st') →
  acc' = acc ++ entry_names srv (schema st.1) e ∧
  is_connected (base st'.1) st'.2 ∧
  schema st'.1 = schema st.1 ∧ tbls st'.1 = tbls st.1 ∧ xcols st'.1 = xcols st.1.
Proof.
  unfold table_list_entry, entry_names. intros (acc1 & st1 & H1 & H2)%bind_inr.
  apply bind_inr in H2 as (ok & st2 & H2 & H3).
  apply verify_tbl_inr in H2 as ((rows & Ha & ->) & Hc & Hs & Ht & Hx).
  destruct (re_search_star e).
  - apply bind_inr in H1 as (found & st0 & H1 & [= <- <-]).
    apply match_tbl_inr in H1 as ((rows' & Ha' & ->) & _ & Hs' & ? & ?).
    rewrite Hs' in Ha. rewrite Ha, Ha'.
    destruct rows; injection H3 as <- <-;
      (split; [by rewrite ?app_nil_r, ?app_assoc|]); repeat split; congruence.
  - injection H1 as <- <-. rewrite Ha.
    destruct rows; injection H3 as <- <-; by rewrite ?app_nil_r.
Qed.

Lemma for_each_entries_inr srv es acc st acc' st' :
  for_each es (table_list_entry srv) acc st = (inr acc', st') →
  acc' = acc ++ (es ≫= entry_names srv (schema st.1)) ∧
  (es ≠ [] → is_connected (base st'.1) st'.2) ∧
  schema st'.1 = schema st.1 ∧ tbls st'.1 = tbls st.1 ∧ xcols st'.1 = xcols st.1.
Proof.
  revert acc st. induction es as [|e es IH]; intros acc st; simpl.
  - intros [= <- <-]. by rewrite app_nil_r.
  - intros (acc1 & st1 & H1 & H2)%bind_inr.
    apply table_list_entry_inr in H1 as (-> & Hc & Hs & ? & ?).
    assert (es = [] → st' = st1) as Hlast by (by intros ->; injection H2).
    apply IH in H2 as (-> & Hc' & ? & ? & ?). rewrite Hs, app_assoc.
    split; [done|]. split; [|repeat split; congruence].
    intros _. destruct es as [|e' es]; [by rewrite Hlast|by apply Hc'].
Qed.

(** The list [table_list] returns is a function of the request and of the
    server's answers alone. *)
Lemma table_list_inr srv st l st' :
  table_list srv st = (inr l, st') →
  l = sorted (list_set
        match tbls st.1 with
        | None => match answer srv (SelectTables (schema st.1)) with
                  | inr rows => col0 <$> rows
                  | inl _ => []
                  end
        | Some req => split "," (strip req) ≫= entry_names srv (schema st.1)
        end) ∧
  is_connected (base st'.1) st'.2 ∧
  schema st'.1 = schema st.1 ∧ xcols st'.1 = xcols st.1 ∧
  StronglySorted String.le l ∧ NoDup l.
Proof.
  destruct st as [self w]. unfold table_list. step.
  intros (acc & st1 & H1 & [= <- <-])%bind_inr.
  assert (acc = match tbls self with
                | None => match answer srv (SelectTables (schema self)) with
                          | inr rows => col0 <$> rows
                          | inl _ => []
                          end
                | Some req => split "," (strip req) ≫= entry_names srv (schema self)
                end ∧
          is_connected (base st1.1) st1.2 ∧
          schema st1.1 = schema self ∧ xcols st1.1 = xcols self) as (-> & ? & ? & ?).
  { simpl. destruct (tbls self) as [t|].
    - apply for_each_entries_inr in H1 as (-> & Hc & ? & _ & ?).
      split; [done|]. split; [apply Hc, split_not_nil|done].
    - apply bind_inr in H1 as (rows & st0 & H1 & [= <- <-]).
      apply inherited_execute_inr in H1 as (-> & ? & ? & _ & ?). done. }
  repeat split; try done; [apply sorted_StronglySorted|apply NoDup_sorted_list_set].
Qed.

Lemma DatabaseQuery_init_inr srv typed h d u s tl xc w self w' :
  DatabaseQuery_init srv typed h d u s tl xc w = (inr self, w') →
  is_connected (base self) w' ∧ schema self = s ∧ xcols self = strip <$> xc ∧
  StronglySorted String.le (tbl_list self) ∧ NoDup (tbl_list self).
Proof.
  unfold DatabaseQuery_init.
  destruct (table_list _ _) as [[e|l] [self' w1]] eqn:E; [done|].
  intros [= <- <-]. by apply table_list_inr in E as (_ & ? & ? & ? & ? & ?).
Qed.

(** For any server: when [table_list] returns, the names the server gave
    for the pattern of a wildcard entry are all in the result. *)
Lemma table_list_pattern_answer srv self w req e l rows :
  tbls self = Some req → (table_list srv (self, w)).1 = inr l →
  e ∈ split "," (strip req) → re_search_star e →
  answer srv (SelectTablesILike (schema self) (join "%" (split "*" e))) = inr rows →
  ∀ r, r ∈ rows → col0 r ∈ l.
Proof.
  intros Hreq Hl He Hstar Ha r Hr.
  destruct (table_list srv (self, w)) as [res st'] eqn:E. simpl in Hl. subst res.
  apply table_list_inr in E as (-> & _). simpl. rewrite Hreq.
  apply elem_of_sorted_list_set, list_elem_of_bind. exists e. split; [|done].
  unfold entry_names. rewrite (Is_true_eq_true _ Hstar), Ha.
  apply elem_of_app. left. apply list_elem_of_fmap. eauto.
Qed.

(** ** The sample server answers from its catalog *)

Lemma fmap_name_rows (l : list string) : col0 <$> ((λ n, Row n []) <$> l) = l.
Proof. induction l as [|x l IH]; csimpl; [done|by rewrite IH]. Qed.

Lemma elem_of_tables_in cat s t :
  t ∈ tables_in cat s ↔ ∃ d, d ∈ cat ∧ t_schema d = s ∧ t_name d = t.
Proof.
  unfold tables_in. rewrite list_elem_of_fmap. setoid_rewrite list_elem_of_filter.
  naive_solver.
Qed.

Lemma catalog_server_serves pw cat : serves (catalog_server pw cat) cat.
Proof.
  split; simpl.
  - intros s Hs. rewrite (Is_true_eq_true _ Hs). simpl. eexists. split; [done|].
    by rewrite fmap_name_rows, merge_sort_Permutation.
  - intros s p Hs Hp. rewrite (Is_true_eq_true _ Hs), (Is_true_eq_true _ Hp). simpl.
    eexists. split; [done|]. by rewrite fmap_name_rows.
  - intros s t Hs Ht. rewrite (Is_true_eq_true _ Hs), (Is_true_eq_true _ Ht). simpl.
    eexists. split; [done|]. rewrite elem_of_tables_in. split.
    + intros Hnil%fmap_nil_inv (d & Hd & Hsd & Htd).
      by apply (filter_nil_not_elem_of _ _ d Hnil).
    + intros Hno. destruct (filter _ cat) as [|d l] eqn:E; [done|]. destruct Hno.
      assert (d ∈ filter (λ d, t_schema d = s ∧ t_name d = t) cat) as Hd
        by (rewrite E; left).
      apply list_elem_of_filter in Hd. naive_solver.
  - intros s t Hs Ht. rewrite (Is_true_eq_true _ Hs), (Is_true_eq_true _ Ht). simpl.
    eexists. split; [done|]. by rewrite fmap_name_rows.
Qed.

Lemma blank_sql_safe s : blank s → sql_safe s.
Proof.
  induction s as [|c s IH]; [done|]. simpl. intros [Hc Hs]%andb_True.
  case_decide as H; [|auto]. by destruct H as [-> | ->].
Qed.

Lemma sql_safe_app s t : sql_safe s → sql_safe t → sql_safe (s +:+ t).
Proof.
  intros Hs Ht. induction s as [|c s IH]; [done|]. rewrite app_cons.
  simpl in *. case_decide; [done|auto].
Qed.

(** ** Claims on [table_list] *)

(** C7: whatever the request and whatever the server answers, a list that
    [table_list] returns is sorted ascending by name and holds no name
    twice. *)
Theorem table_list_sorted_unique srv self w l :
  (table_list srv (self, w)).1 = inr l →
  StronglySorted String.le l ∧ NoDup l.
Proof.
  destruct (table_list srv (self, w)) as [r st'] eqn:E. simpl. intros ->.
  by apply table_list_inr in E as (_ & _ & _ & _ & ? & ?).
Qed.

(** On the sample shop, with a request that selects [a*b] twice, as a
    pattern and as a literal name. *)
Lemma table_list_sorted_unique_witness :
  StronglySorted String.le ["X_b"; "a*b"; "orders"; "x_a"] ∧
  NoDup ["X_b"; "a*b"; "orders"; "x_a"].
Proof.
  apply (table_list_sorted_unique shop_server
           (shop_query (Some "x_*, orders,a*b,orders,nope") None) []).
  vm_compute. reflexivity.
Defined.

(** C6: without a request, [table_list] returns the table names of the
    schema, each once, sorted ascending; when the schema has N tables
    (names being unique within a schema) the list is a rearrangement of
    those N names. *)
Theorem table_list_without_request srv cat self w :
  serves srv cat → can_query srv (base self) w → sql_safe (schema self) →
  tbls self = None → NoDup (tables_in cat (schema self)) →
  ∃ l, (table_list srv (self, w)).1 = inr l ∧
       l ≡ₚ tables_in cat (schema self) ∧
       StronglySorted String.le l ∧ NoDup l.
Proof.
  intros Hsrv Hq Hs Hnone Hnd.
  destruct (table_list_all srv cat Hsrv self w Hq Hs Hnone)
    as (l & st' & -> & _ & ? & ? & _ & Hperm).
  exists l. auto.
Qed.

(** On the sample shop, whose schema [public] has four tables. *)
Lemma table_list_without_request_witness :
  ∃ l, (table_list shop_server (shop_query None None, [])).1 = inr l ∧
       l ≡ₚ ["orders"; "x_a"; "X_b"; "a*b"] ∧
       StronglySorted String.le l ∧ NoDup l.
Proof.
  apply (table_list_without_request shop_server shop (shop_query None None) []).
  - apply catalog_server_serves.
  - reflexivity.
  - reflexivity.
  - reflexivity.
  - apply (bool_decide_unpack _). vm_compute. reflexivity.
Defined.

(** C10: a request that is empty or made of whitespace only yields the
    empty list, whatever tables the schema has (no table has the empty
    name: PostgreSQL refuses zero-length identifiers). *)
Theorem table_list_blank_request srv cat self w req :
  serves srv cat → can_query srv (base self) w → sql_safe (schema self) →
  tbls self = Some req → blank req →
  "" ∉ tables_in cat (schema self) →
  (table_list srv (self, w)).1 = inr [].
Proof.
  intros Hsrv Hq Hs Hreq Hblank Hno.
  destruct (table_list_requested srv cat Hsrv self w req Hq Hs Hreq
              (blank_sql_safe _ Hblank)) as (l & st' & -> & _ & _ & _ & Hl).
  simpl. f_equal. apply elem_of_nil_inv. intros t (Ht & e & He & Hsel)%Hl.
  rewrite strip_blank in He by done. apply list_elem_of_singleton in He as ->.
  destruct Hsel as [->|[[] _]]. done.
Qed.

(** On the sample shop: blanks only, and the empty request. *)
Lemma table_list_blank_request_witness :
  (table_list shop_server (shop_query (Some "   ") None, [])).1 = inr [] ∧
  (table_list shop_server (shop_query (Some "") None, [])).1 = inr [] ∧
  tables_in shop "public" = ["orders"; "x_a"; "X_b"; "a*b"].
Proof.
  split; [|split; [|reflexivity]].
  - apply (table_list_blank_request shop_server shop (shop_query (Some "   ") None) [] "   ").
    + apply catalog_server_serves.
    + reflexivity.
    + reflexivity.
    + reflexivity.
    + reflexivity.
    + apply (bool_decide_unpack _). vm_compute. reflexivity.
  - apply (table_list_blank_request shop_server shop (shop_query (Some "") None) [] "").
    + apply catalog_server_serves.
    + reflexivity.
    + reflexivity.
    + reflexivity.
    + reflexivity.
    + apply (bool_decide_unpack _). vm_compute. reflexivity.
Defined.

Lemma join_split c s : join (String c "") (split c s) = s.
Proof.
  induction s as [|d s IH]; [done|]. simpl.
  pose proof (split_not_nil c s) as Hne. case_decide as Hd.
  - subst d. destruct (split c s) as [|f fs]; [done|]. simpl in *. by rewrite IH.
  - destruct (split c s) as [|f [|g fs]]; [done|..]; simpl in *; by rewrite <- IH.
Qed.

(** C2 as stated does not hold: the entries of ["x_a, orders"] are ["x_a"]
    and [" orders"]; trimmed, the second names the table [orders], yet
    [orders] is not in the result. *)
Lemma table_list_entry_not_trimmed :
  ¬ (∀ srv cat self w req l e,
       serves srv cat → can_query srv (base self) w → sql_safe (schema self) →
       tbls self = Some req → sql_safe req →
       (table_list srv (self, w)).1 = inr l →
       e ∈ split "," req → strip e ∈ tables_in cat (schema self) →
       strip e ∈ l).
Proof.
  intros H.
  specialize (H shop_server shop (shop_query (Some "x_a, orders") None) []
                "x_a, orders" ["x_a"] " orders").
  assert ("orders" ∈ ["x_a"]) as Hin.
  { apply H.
    - apply catalog_server_serves.
    - reflexivity.
    - reflexivity.
    - reflexivity.
    - reflexivity.
    - vm_compute. reflexivity.
    - apply (bool_decide_unpack _). vm_compute. reflexivity.
    - apply (bool_decide_unpack _). vm_compute. reflexivity. }
  by apply list_elem_of_singleton in Hin.
Qed.

(** C2, amended: the request is trimmed as a whole and then split on
    commas; whitespace around the whole request does not count, and each
    entry is used as it stands between the commas (joined by commas again,
    the entries give the trimmed request back). *)
Theorem table_list_trims_whole_request srv cat self w lead req trail :
  serves srv cat → can_query srv (base self) w → sql_safe (schema self) →
  tbls self = Some (lead +:+ req +:+ trail) →
  blank lead → blank trail → sql_safe req →
  join "," (split "," (strip req)) = strip req ∧
  ∃ l, (table_list srv (self, w)).1 = inr l ∧
       ∀ t, t ∈ l ↔
            t ∈ tables_in cat (schema self) ∧
            ∃ e, e ∈ split "," (strip req) ∧ selects e t.
Proof.
  intros Hsrv Hq Hs Hreq Hlead Htrail Hsafe. split; [apply join_split|].
  assert (sql_safe (lead +:+ req +:+ trail)) as Hall
    by auto using sql_safe_app, blank_sql_safe.
  destruct (table_list_requested srv cat Hsrv self w _ Hq Hs Hreq Hall)
    as (l & st' & -> & _ & _ & _ & Hl).
  exists l. split; [done|]. intros t. rewrite Hl. by rewrite strip_app.
Qed.

(** On the sample shop: [orders] between two spaces. *)
Lemma table_list_trims_whole_request_witness :
  join "," (split "," "orders") = "orders" ∧
  ∃ l, (table_list shop_server (shop_query (Some " orders ") None, [])).1 = inr l ∧
       ∀ t, t ∈ l ↔
            t ∈ tables_in shop "public" ∧ ∃ e, e ∈ ["orders"] ∧ selects e t.
Proof.
  apply (table_list_trims_whole_request shop_server shop
           (shop_query (Some " orders ") None) [] " " "orders" " ").
  - apply catalog_server_serves.
  - reflexivity.
  - reflexivity.
  - reflexivity.
  - reflexivity.
  - reflexivity.
  - reflexivity.
Defined.

(** ** Claims on [column_list] *)

(** C3 as stated does not hold: with the exclusion [" id"] the only raw
    token is [" id"], which is no column of [orders], yet [id] is
    removed. *)
Lemma column_list_raw_tokens_fail :
  ¬ (∀ srv cat typed h d u s tl excluded w self w' tbl,
       serves srv cat → sql_safe s → sql_safe tbl →
       DatabaseQuery_init srv typed h d u s tl (Some excluded) w = (inr self, w') →
       (column_list srv tbl (self, w')).1 =
         inr (filter (λ c, c ∉ split "," excluded) (columns_of cat s tbl))).
Proof.
  intros H.
  specialize (H shop_server shop "pw" "localhost" "shopdb" "alice" "public"
                (Some "orders") " id" []
                (mkDatabaseQuery (mkDatabase "localhost" "shopdb" "alice" (Some "pw") (Some 0))
                   "public" (Some "orders") (Some "id") ["orders"])
                [Connect 0] "orders").
  assert (inr ["name"; "created_at"; "total"]
          = (inr ["id"; "name"; "created_at"; "total"] : exn + list string)) as Heq.
  { etrans; [|etrans; [apply H|]].
    - vm_compute. reflexivity.
    - apply catalog_server_serves.
    - reflexivity.
    - reflexivity.
    - vm_compute. reflexivity.
    - vm_compute. reflexivity. }
  discriminate Heq.
Qed.

(** C3, amended: the object keeps the exclusion list trimmed as a whole;
    [column_list] returns the catalog's columns of the table in catalog
    order, minus those equal to a comma-split token of that trimmed list
    (the tokens themselves are not trimmed), and all of them when no list
    was given. *)
Theorem column_list_excludes_tokens srv cat typed h d u s tl xc w self w' tbl :
  serves srv cat → sql_safe s → sql_safe tbl →
  DatabaseQuery_init srv typed h d u s tl xc w = (inr self, w') →
  (column_list srv tbl (self, w')).1 =
    inr match xc with
        | None => columns_of cat s tbl
        | Some excluded =>
            filter (λ c, c ∉ split "," (strip excluded)) (columns_of cat s tbl)
        end.
Proof.
  intros Hsrv Hs Ht (Hc & Hsch & Hx & _)%DatabaseQuery_init_inr.
  rewrite (column_list_serves srv cat Hsrv tbl (self, w'));
    [|by apply is_connected_can_query|by simpl; rewrite Hsch|done].
  simpl. rewrite Hx, Hsch. by destruct xc.
Qed.

(** On the sample shop: [orders] without [id] and [created_at]. *)
Lemma column_list_excludes_tokens_witness :
  columns_of shop "public" "orders" = ["id"; "name"; "created_at"; "total"] ∧
  (column_list shop_server "orders"
     (mkDatabaseQuery (mkDatabase "localhost" "shopdb" "alice" (Some "pw") (Some 0))
        "public" (Some "orders") (Some "id,created_at") ["orders"],
      [Connect 0])).1 = inr ["name"; "total"].
Proof.
  split; [reflexivity|].
  apply (column_list_excludes_tokens shop_server shop "pw" "localhost" "shopdb"
           "alice" "public" (Some "orders") (Some "id,created_at") []).
  - apply catalog_server_serves.
  - reflexivity.
  - reflexivity.
  - vm_compute. reflexivity.
Defined.

(** ** The connection manager *)

Lemma open_db_state srv self w :
  (open_db srv (self, w)).2 =
    match password self with
    | Some pw =>
        if accepts srv (host self) (db self) (user self) pw
        then (set_conn self (Some (length (closing self ++ w))),
              Connect (length (closing self ++ w)) :: closing self ++ w)
        else (self, closing self ++ w)
    | None => (self, closing self ++ w)
    end.
Proof.
  unfold open_db, closing, conn_close, connect, assign_conn. run.
  destruct (conn self), (password self); simpl; try done;
    by destruct (accepts _ _ _ _ _).
Qed.

Lemma cursor_state srv self w :
  (cursor srv (self, w)).2 =
    match conn self with
    | Some _ => (self, w)
    | None => (open_db srv (self, w)).2
    end.
Proof.
  unfold cursor, conn_cursor. run. destruct (conn self) as [c|] eqn:E; simpl.
  - rewrite E. simpl. by destruct (decide _).
  - destruct (open_db srv (self, w)) as [[e|[]] [self' w']]; simpl; [done|].
    destruct (conn self'); simpl; [|done]. by destruct (decide _).
Qed.

Lemma execute_state srv q st : (execute srv q st).2 = (cursor srv st).2.
Proof.
  unfold execute. run. destruct (cursor srv st) as [[e|c] st']; simpl; [done|].
  by destruct (answer srv q).
Qed.

Lemma close_state self w :
  (close (self, w)).2 =
    match conn self with
    | Some c => (set_conn self None, Close c :: w)
    | None => (self, w)
    end.
Proof. unfold close, conn_close, assign_conn. run. by destruct (conn self). Qed.

Lemma held_size self w :
  (∀ c, c ∈ live w → conn self = Some c) → size (live w) ≤ 1.
Proof.
  intros H. destruct (conn self) as [c0|] eqn:E.
  - rewrite <- (size_singleton (C:=gset nat) c0). apply subseteq_size.
    intros c Hc. apply H in Hc. set_solver.
  - assert (live w = ∅) as -> by (apply leibniz_equiv; intros c; split; [intros ?%H|]; set_solver).
    rewrite size_empty. lia.
Qed.

Lemma holds_closing self w :
  holds_all_live (self, w) →
  never_two (closing self ++ w) ∧ live (closing self ++ w) = ∅.
Proof.
  intros [Hn Hl]. simpl in *. unfold closing. destruct (conn self) as [c0|] eqn:E; simpl.
  - assert (live w ∖ {[c0]} = ∅) as Hempty.
    { apply leibniz_equiv. intros c. split; [|set_solver].
      intros [Hc Hne]%elem_of_difference. apply Hl in Hc. set_solver. }
    rewrite Hempty. split; [|done]. split; [|done]. rewrite size_empty. lia.
  - split; [done|]. apply leibniz_equiv. intros c. split; [intros ?%Hl|]; set_solver.
Qed.

Lemma open_db_holds srv st : holds_all_live st → holds_all_live (open_db srv st).2.
Proof.
  destruct st as [self w]. intros H. destruct (holds_closing self w H) as [Hn He].
  assert (holds_all_live (self, closing self ++ w)) as Hfail.
  { split; [done|]. simpl. rewrite He. set_solver. }
  rewrite open_db_state. destruct (password self); [|done].
  destruct (accepts _ _ _ _ _); [|done].
  split; simpl.
  - rewrite He. split; [|done]. rewrite union_empty_r_L. by rewrite size_singleton.
  - rewrite He. intros c Hc. f_equal. set_solver.
Qed.

Lemma cursor_holds srv st : holds_all_live st → holds_all_live (cursor srv st).2.
Proof.
  destruct st as [self w]. intros H. rewrite cursor_state.
  destruct (conn self); [done|]. by apply open_db_holds.
Qed.

Lemma close_holds st : holds_all_live st → holds_all_live (close st).2.
Proof.
  destruct st as [self w]. intros H. rewrite close_state.
  destruct (conn self) as [c0|] eqn:E; [|done].
  destruct (holds_closing self w H) as [Hn He]. unfold closing in *. rewrite E in *.
  simpl in *. split; [done|]. simpl. rewrite He. set_solver.
Qed.

Lemma run_call_holds srv c st : holds_all_live st → holds_all_live (run_call srv c st).
Proof.
  destruct c; simpl; intros H.
  - by apply open_db_holds.
  - by apply cursor_holds.
  - by apply close_holds.
  - rewrite execute_state. by apply cursor_holds.
Qed.

Lemma run_calls_holds srv cs st : holds_all_live st → holds_all_live (run_calls srv cs st).
Proof.
  revert st. induction cs as [|c cs IH]; intros st H; [done|].
  simpl. apply IH. by apply run_call_holds.
Qed.

Lemma open_db_run srv self w :
  open_db srv (self, w) =
    match password self with
    | Some pw =>
        if accepts srv (host self) (db self) (user self) pw
        then (inr tt,
              (set_conn self (Some (length (closing self ++ w))),
               Connect (length (closing self ++ w)) :: closing self ++ w))
        else (inl OperationalError, (self, closing self ++ w))
    | None => (inr tt, (self, closing self ++ w))
    end.
Proof.
  unfold open_db, closing, conn_close, connect, assign_conn. run.
  destruct (conn self), (password self); simpl; try done;
    by destruct (accepts _ _ _ _ _).
Qed.

Lemma cursor_run srv self w :
  cursor srv (self, w) =
    match conn self with
    | Some c => (if decide (c ∈ live w) then inr c else inl InterfaceError, (self, w))
    | None =>
        match password self with
        | Some pw =>
            if accepts srv (host self) (db self) (user self) pw
            then (inr (length w),
                  (set_conn self (Some (length w)), Connect (length w) :: w))
            else (inl OperationalError, (self, w))
        | None => (inl AttributeError, (self, w))
        end
    end.
Proof.
  unfold cursor, conn_cursor. step. destruct (conn self) as [c|] eqn:E.
  - cbv beta iota zeta. rewrite E. by destruct (decide _).
  - rewrite open_db_run. unfold closing. rewrite E. simpl.
    destruct (password self) as [pw|].
    + destruct (accepts _ _ _ _ _); [|done]. simpl.
      rewrite decide_True; [done|]. set_solver.
    + simpl. by rewrite E.
Qed.

Lemma execute_run srv q self w :
  execute srv q (self, w) =
    match cursor srv (self, w) with
    | (inl e, st) => (inl e, st)
    | (inr _, st) => (answer srv q, st)
    end.
Proof.
  unfold execute. step. destruct (cursor srv (self, w)) as [[e|c] st]; [done|].
  by destruct (answer srv q).
Qed.

(** C8: whatever calls are made on a new manager, at no moment are two of
    its connections open, and a connection that is open is the one the
    manager holds.  [open_db] first closes the connection held, if any,
    and then connects: when the server accepts, the new connection is open
    and held.  [cursor] on a manager that holds a connection opens none;
    on a manager that holds none it opens one, exactly as [open_db] does.
    [execute] opens and keeps connections exactly as [cursor] does, and
    raises what [cursor] raises. *)
Theorem at_most_one_live_connection srv :
  (∀ typed h d u p cs,
     never_two (run_calls srv cs (Database_init typed h d u p, [])).2 ∧
     size (live (run_calls srv cs (Database_init typed h d u p, [])).2) ≤ 1 ∧
     ∀ c, c ∈ live (run_calls srv cs (Database_init typed h d u p, [])).2 →
          conn (run_calls srv cs (Database_init typed h d u p, [])).1 = Some c) ∧
  (∀ self w,
     open_db srv (self, w) =
       match password self with
       | Some pw =>
           if accepts srv (host self) (db self) (user self) pw
           then (inr tt,
                 (set_conn self (Some (length (closing self ++ w))),
                  Connect (length (closing self ++ w)) :: closing self ++ w))
           else (inl OperationalError, (self, closing self ++ w))
       | None => (inr tt, (self, closing self ++ w))
       end) ∧
  (∀ self w,
     cursor srv (self, w) =
       match conn self with
       | Some c =>
           (if decide (c ∈ live w) then inr c else inl InterfaceError, (self, w))
       | None =>
           match password self with
           | Some pw =>
               if accepts srv (host self) (db self) (user self) pw
               then (inr (length w),
                     (set_conn self (Some (length w)), Connect (length w) :: w))
               else (inl OperationalError, (self, w))
           | None => (inl AttributeError, (self, w))
           end
       end) ∧
  (∀ q self w,
     (execute srv q (self, w)).2 = (cursor srv (self, w)).2 ∧
     ∀ e, (cursor srv (self, w)).1 = inl e → (execute srv q (self, w)).1 = inl e).
Proof.
  split; [|split; [|split]].
  - intros typed h d u p cs.
    destruct (run_calls_holds srv cs (Database_init typed h d u p, [])) as [Hn Hl].
    { split; [done|]. simpl. set_solver. }
    split; [done|]. split; [|done]. by apply (held_size _ _ Hl).
  - apply open_db_run.
  - apply cursor_run.
  - intros q self w. split; [apply execute_state|].
    intros e He. rewrite execute_run.
    destruct (cursor srv (self, w)) as [[e'|c] st]; simpl in *; congruence.
Qed.

(** On the sample shop: the first query of a new manager opens a
    connection, the second is sent on it, and [open_db] then replaces it
    by a new one. *)
Example lazy_open_ex :
  run_calls shop_server
    [CallExecute (SelectTables "public"); CallExecute (SelectTables "audit"); CallOpenDb]
    (Database_init "pw" "localhost" "shopdb" "alice" None, [])
  = (mkDatabase "localhost" "shopdb" "alice" (Some "pw") (Some 2),
     [Connect 2; Close 0; Connect 0]).
Proof. reflexivity. Qed.

(** ** The document written *)

Lemma connected_q_is_connected self w :
  is_connected (base self) w → connected_q (self, w) = (self, w).
Proof.
  intros H. unfold connected_q. simpl. rewrite connected_is_connected by done.
  by destruct self.
Qed.

Lemma column_list_connected srv cat self w tbl :
  serves srv cat → is_connected (base self) w →
  sql_safe (schema self) → sql_safe tbl →
  column_list srv tbl (self, w) = (inr (resolved_columns cat self tbl), (self, w)).
Proof.
  intros Hsrv Hc Hs Ht.
  rewrite (column_list_serves srv cat Hsrv tbl (self, w));
    [|by apply is_connected_can_query|done..].
  by rewrite connected_q_is_connected.
Qed.

(** ** The writer on any list of tables *)

Lemma bind_run {St A B} (m : M St A) (f : A → M St B) s a s1 :
  m s = (inr a, s1) → (m ≫= f) s = f a s1.
Proof. unfold mbind, M_bind. by intros ->. Qed.

Lemma add_cell_run (self : OdsFile) st row c :
  (cell ← new_element (TableCell "string" c); addElement row cell) (self, st)
  = (inr tt, (self, alter (attach (length st)) row (st ++ [cell_element c]))).
Proof. reflexivity. Qed.

Lemma add_cells (self : OdsFile) row pre ks cells cs :
  length pre = row →
  for_each cs
    (λ _ item, cell ← new_element (TableCell "string" item); addElement row cell) tt
    (self, pre ++ Element TableRow ks :: cells)
  = (inr tt,
     (self, pre ++ Element TableRow (ks ++ seq (S row + length cells) (length cs))
              :: cells ++ (cell_element <$> cs))).
Proof.
  intros <-. revert ks cells. induction cs as [|c cs IH]; intros ks cells; simpl.
  - by rewrite !app_nil_r.
  - erewrite bind_run; [|apply add_cell_run].
    rewrite <- app_assoc. simpl.
    rewrite alter_app_r_alt by lia. rewrite Nat.sub_diag. simpl.
    unfold attach at 1. simpl. rewrite IH.
    rewrite !length_app, <- !app_assoc. simpl.
    replace (length pre + S (length cells)) with (S (length pre + length cells)) by lia.
    by replace (length pre + (length cells + 1))
      with (S (length pre + length cells)) by lia.
Qed.

Lemma new_sheet_run (self : OdsFile) st t :
  new_sheet t (self, st) = (inr (length st), (self, st ++ [Element (Table t) []])).
Proof. reflexivity. Qed.

Lemma add_row_to_sheet_run (self : OdsFile) st t cs :
  add_row_to_sheet cs (length st) (self, st ++ [Element (Table t) []])
  = (inr tt, (self, st ++ sheet_elements (length st) t cs)).
Proof.
  unfold add_row_to_sheet.
  erewrite bind_run; [|reflexivity]. erewrite bind_run; [|reflexivity].
  rewrite <- app_assoc. simpl.
  rewrite alter_app_r_alt by lia. rewrite Nat.sub_diag. simpl.
  unfold attach at 1. simpl. rewrite length_app. simpl.
  replace (length st + 1) with (S (length st)) by lia.
  pose proof (add_cells self (S (length st)) (st ++ [Element (Table t) [S (length st)]])
                [] [] cs) as H.
  rewrite <- app_assoc in H. simpl in H. rewrite H.
  - unfold sheet_elements. rewrite <- app_assoc. simpl. by rewrite Nat.add_0_r.
  - rewrite length_app. simpl. lia.
Qed.

Lemma add_sheet_run (self : OdsFile) st root n :
  wkbook self = Some root →
  add_sheet n (self, st) = (inr tt, (self, alter (attach n) root st)).
Proof. intros H. unfold add_sheet, addElement. step. by rewrite H. Qed.

Lemma omap_ext_elem {A B} (f g : A → option B) (l : list A) :
  (∀ x, x ∈ l → f x = g x) → omap f l = omap g l.
Proof.
  induction l as [|x l IH]; intros H; [done|]. csimpl.
  rewrite (H x) by left. rewrite IH; [done|]. intros y Hy. apply H. by right.
Qed.

Lemma omap_lookup_seq {A} (l : list A) (f : nat → option A) a :
  (∀ i, i < length l → f (a + i) = l !! i) → omap f (seq a (length l)) = l.
Proof.
  revert a. induction l as [|x l IH]; intros a H; [done|]. csimpl.
  pose proof (H 0 ltac:(simpl; lia)) as H0. rewrite Nat.add_0_r in H0.
  rewrite H0. csimpl. f_equal. apply IH. intros i Hi.
  replace (S a + i) with (a + S i) by lia. apply (H (S i)). simpl. lia.
Qed.

Section ReadOff.
Context (st : list element) (root : nat) (kids : list nat) (t : string)
        (cs : list string).
Context (Hroot : st !! root = Some (Element Spreadsheet kids))
        (Hclosed : closed root st).

Lemma root_lt : root < length st.
Proof. by eapply lookup_lt_Some. Qed.

Lemma written_old i :
  i ≠ root → i < length st → written st root t cs !! i = st !! i.
Proof.
  intros Hne Hlt. unfold written. rewrite list_lookup_alter_ne by done.
  by apply lookup_app_l.
Qed.

Lemma written_root :
  written st root t cs !! root = Some (Element Spreadsheet (kids ++ [length st])).
Proof.
  unfold written. rewrite list_lookup_alter_eq, lookup_app_l by apply root_lt.
  by rewrite Hroot.
Qed.

Lemma written_new i :
  written st root t cs !! (length st + i) = sheet_elements (length st) t cs !! i.
Proof.
  unfold written. pose proof root_lt.
  rewrite list_lookup_alter_ne by lia. rewrite lookup_app_r by lia.
  f_equal. lia.
Qed.

Lemma length_written : length (written st root t cs) = length st + 2 + length cs.
Proof.
  unfold written, sheet_elements. rewrite length_alter, length_app. simpl.
  rewrite length_fmap. lia.
Qed.

Lemma cells_of_old j :
  j ≠ root → j < length st → cells_of (written st root t cs) j = cells_of st j.
Proof.
  intros Hne Hlt. unfold cells_of, children_of. rewrite written_old by done.
  destruct (st !! j) as [e|] eqn:E; [|done]. f_equal.
  apply omap_ext_elem. intros k Hk.
  destruct (Hclosed j e k E Hk). by apply written_old.
Qed.

Lemma rows_of_old j :
  j ≠ root → j < length st → rows_of (written st root t cs) j = rows_of st j.
Proof.
  intros Hne Hlt. unfold rows_of. rewrite written_old by done.
  destruct (st !! j) as [e|] eqn:E; [|done].
  apply omap_ext_elem. intros k Hk.
  destruct (Hclosed j e k E Hk). rewrite written_old by done.
  by rewrite cells_of_old.
Qed.

Lemma written_table :
  written st root t cs !! length st = Some (Element (Table t) [S (length st)]).
Proof. pose proof (written_new 0) as H. by rewrite Nat.add_0_r in H. Qed.

Lemma written_row :
  written st root t cs !! S (length st)
  = Some (Element TableRow (seq (S (S (length st))) (length cs))).
Proof.
  pose proof (written_new 1) as H.
  by replace (length st + 1) with (S (length st)) in H by lia.
Qed.

Lemma cells_of_new :
  cells_of (written st root t cs) (S (length st)) = text_cell <$> cs.
Proof.
  unfold cells_of, children_of. rewrite written_row. simpl.
  rewrite <- (length_fmap cell_element cs).
  rewrite (omap_lookup_seq (cell_element <$> cs)).
  - clear. induction cs as [|c l IH]; [done|]. csimpl. by rewrite IH.
  - intros i Hi. replace (S (S (length st)) + i) with (length st + S (S i)) by lia.
    by rewrite written_new.
Qed.

Lemma rows_of_new :
  rows_of (written st root t cs) (length st) = [text_cell <$> cs].
Proof.
  unfold rows_of. rewrite written_table. csimpl.
  rewrite written_row. csimpl. by rewrite cells_of_new.
Qed.

Lemma sheets_of_written :
  sheets_of (written st root t cs) root
  = sheets_of st root ++ [Sheet t [text_cell <$> cs]].
Proof.
  unfold sheets_of. rewrite written_root, Hroot. simpl. rewrite omap_app. f_equal.
  - apply omap_ext_elem. intros j Hj.
    destruct (Hclosed root _ j Hroot Hj). rewrite written_old by done.
    by rewrite rows_of_old.
  - csimpl. rewrite written_table. csimpl. by rewrite rows_of_new.
Qed.

Lemma closed_written : closed root (written st root t cs).
Proof.
  intros i e k Hi Hk. rewrite length_written. pose proof root_lt as Hr.
  destruct (decide (i = root)) as [->|Hne].
  - rewrite written_root in Hi. injection Hi as <-. simpl in Hk.
    apply elem_of_app in Hk as [Hk|Hk%list_elem_of_singleton].
    + destruct (Hclosed root _ k Hroot Hk). split; [done|lia].
    + subst k. split; lia.
  - destruct (decide (i < length st)) as [Hlt|Hge].
    + rewrite written_old in Hi by done.
      destruct (Hclosed i e k Hi Hk). split; [done|lia].
    + replace i with (length st + (i - length st)) in Hi by lia.
      rewrite written_new in Hi.
      destruct (i - length st) as [|[|m]]; simpl in Hi.
      * injection Hi as <-. simpl in Hk. apply list_elem_of_singleton in Hk as ->.
        split; lia.
      * injection Hi as <-. simpl in Hk. apply elem_of_seq in Hk. split; lia.
      * apply list_lookup_fmap_Some in Hi as (c & -> & _). by apply elem_of_nil in Hk.
Qed.

End ReadOff.

Lemma write_sheet_run srv cat t (self : DatabaseQuery) w (ods : OdsFile) st root :
  serves srv cat → is_connected (base self) w → sql_safe (schema self) →
  sql_safe t → wkbook ods = Some root →
  (tbl_sheet ← on_ods (new_sheet t);
   columns ← on_db (column_list srv t);
   on_ods (add_row_to_sheet columns tbl_sheet);;
   on_ods (add_sheet tbl_sheet)) ((self, w), (ods, st))
  = (inr tt, ((self, w), (ods, written st root t (resolved_columns cat self t)))).
Proof.
  intros Hsrv Hc Hs Ht Hroot.
  erewrite bind_run; [|unfold on_ods; by rewrite new_sheet_run].
  erewrite bind_run;
    [|unfold on_db; by rewrite (column_list_connected srv cat self w t)].
  erewrite bind_run; [|unfold on_ods; by rewrite add_row_to_sheet_run].
  unfold on_ods. by rewrite (add_sheet_run _ _ root).
Qed.

(** One sheet per table, in the order of the tables, each with one row of
    text cells for the resolved columns, after the sheets already there. *)
Lemma write_sheets_document srv cat ts (self : DatabaseQuery) w (ods : OdsFile) st root kids :
  serves srv cat → is_connected (base self) w → sql_safe (schema self) →
  Forall (λ t, sql_safe t) ts →
  wkbook ods = Some root →
  st !! root = Some (Element Spreadsheet kids) → closed root st →
  ∃ st', write_sheets srv ts ((self, w), (ods, st))
         = (inr tt, ((self, w), (ods, st'))) ∧
         sheets_of st' root = sheets_of st root ++ (sheet_for cat self <$> ts).
Proof.
  intros Hsrv Hc Hs Hts Hwk. revert st kids.
  induction Hts as [|t ts Ht Hts IH]; intros st kids Hroot Hclosed.
  - exists st. split; [done|]. by rewrite app_nil_r.
  - unfold write_sheets in *. simpl.
    erewrite bind_run; [|by apply (write_sheet_run srv cat)].
    destruct (IH (written st root t (resolved_columns cat self t))
                 (kids ++ [length st])) as (st' & Hrun & Hsheets).
    + by apply written_root.
    + by eapply closed_written.
    + exists st'. split; [done|]. rewrite Hsheets.
      rewrite (sheets_of_written st root kids) by done.
      by rewrite <- app_assoc.
Qed.

(** Every run that gets past the constructor writes one sheet per resolved
    table, named after it, with the resolved columns as one row of text
    cells (the names being free of quote and backslash). *)
Theorem main_document srv cat typed h d u s tl xc out w self w1 :
  serves srv cat → sql_safe s →
  DatabaseQuery_init srv typed h d u s tl xc w = (inr self, w1) →
  Forall (λ t, sql_safe t) (tbl_list self) →
  (main srv typed h d u s tl xc out w).1
  = inr (out, sheet_for cat self <$> tbl_list self).
Proof.
  intros Hsrv Hs Hinit Hts.
  pose proof (DatabaseQuery_init_inr _ _ _ _ _ _ _ _ _ _ _ Hinit) as (Hc & Hsch & _).
  destruct (write_sheets_document srv cat (tbl_list self) self w1
              (mkOdsFile (Some out) (Some 0)) [Element Spreadsheet []] 0 [])
    as (st' & Hrun & Hsheets); try done.
  { by rewrite Hsch. }
  { intros i e k Hi Hk. destruct i as [|i]; simpl in Hi.
    - injection Hi as <-. by apply elem_of_nil in Hk.
    - by rewrite lookup_nil in Hi. }
  unfold main. rewrite Hinit.
  erewrite bind_run; [|reflexivity]. erewrite bind_run; [|exact Hrun].
  erewrite bind_run; [|reflexivity].
  rewrite Hsheets. simpl.
  unfold on_db, inherited, close, conn_close, assign_conn. run.
  by destruct (conn (base self)).
Qed.

Example main_document_ex :
  (main shop_server "pw" "localhost" "shopdb" "alice" "public" (Some "x_*,orders")
     (Some "id,created_at") "out.ods" []).1
  = inr ("out.ods",
         [Sheet "X_b" [[text_cell "col3"]];
          Sheet "orders" [[text_cell "name"; text_cell "total"]];
          Sheet "x_a" [[text_cell "col1"; text_cell "col2"]]]).
Proof.
  apply (main_document shop_server shop "pw" "localhost" "shopdb" "alice" "public"
           (Some "x_*,orders") (Some "id,created_at") "out.ods" []
           (mkDatabaseQuery (mkDatabase "localhost" "shopdb" "alice" (Some "pw") (Some 0))
              "public" (Some "x_*,orders") (Some "id,created_at")
              ["X_b"; "orders"; "x_a"])
           [Connect 0]).
  - apply catalog_server_serves.
  - reflexivity.
  - vm_compute. reflexivity.
  - repeat constructor.
Qed.

(** C9: when the resolved tables are [a] and [b] and their resolved
    columns [c1; c2] and [c3], the document written has exactly the sheets
    [a] and [b], in this order, each with one row, of two and of one text
    cells holding the column names in the resolver's order. *)
Theorem main_writes_sheet_per_table srv cat typed h d u s tl xc out w self w1 c1 c2 c3 :
  serves srv cat → sql_safe s →
  DatabaseQuery_init srv typed h d u s tl xc w = (inr self, w1) →
  tbl_list self = ["a"; "b"] →
  resolved_columns cat self "a" = [c1; c2] →
  resolved_columns cat self "b" = [c3] →
  (main srv typed h d u s tl xc out w).1 =
    inr (out, [Sheet "a" [[text_cell c1; text_cell c2]];
               Sheet "b" [[text_cell c3]]]).
Proof.
  intros Hsrv Hs Hinit Htbl Ha Hb.
  rewrite (main_document srv cat typed h d u s tl xc out w self w1 Hsrv Hs Hinit).
  - rewrite Htbl. unfold sheet_for. simpl. by rewrite Ha, Hb.
  - rewrite Htbl. by repeat constructor.
Qed.

(** On the catalog of the two tables [a] and [b]. *)
Lemma main_writes_sheet_per_table_witness :
  (main two_tables_server "pw" "localhost" "shopdb" "alice" "public" None None
     "out.ods" []).1 =
    inr ("out.ods", [Sheet "a" [[text_cell "col1"; text_cell "col2"]];
                     Sheet "b" [[text_cell "col3"]]]).
Proof.
  apply (main_writes_sheet_per_table two_tables_server two_tables "pw" "localhost"
           "shopdb" "alice" "public" None None "out.ods" []
           (mkDatabaseQuery (mkDatabase "localhost" "shopdb" "alice" (Some "pw") (Some 0))
              "public" None None ["a"; "b"])
           [Connect 0]).
  - apply catalog_server_serves.
  - reflexivity.
  - vm_compute. reflexivity.
  - reflexivity.
  - reflexivity.
  - reflexivity.
Defined.

(** * Further properties of the code *)

(** ** More on strings *)

Lemma lstrip_idemp s : lstrip (lstrip s) = lstrip s.
Proof.
  induction s as [|c s IH]; [done|]. simpl.
  destruct (isspace c) eqn:E; [done|]. simpl. by rewrite E.
Qed.

Lemma rstrip_idemp s : rstrip (rstrip s) = rstrip s.
Proof.
  induction s as [|c s IH]; [done|]. simpl.
  destruct (rstrip s) as [|d r] eqn:E.
  - destruct (isspace c) eqn:Ec; [done|]. simpl. by rewrite Ec.
  - change (rstrip (String c (String d r))) with
      (match rstrip (String d r) with
       | "" => if isspace c then "" else String c ""
       | r' => String c r'
       end).
    by rewrite IH.
Qed.

Lemma rstrip_lstrip s : rstrip (lstrip s) = lstrip (rstrip s).
Proof.
  induction s as [|c s IH]; [done|]. simpl.
  destruct (isspace c) eqn:Ec.
  - rewrite IH. destruct (rstrip s) as [|d r]; simpl; by rewrite ?Ec.
  - simpl. destruct (rstrip s) as [|d r]; simpl; by rewrite Ec.
Qed.

Lemma strip_idemp s : strip (strip s) = strip s.
Proof.
  unfold strip. by rewrite rstrip_lstrip, rstrip_idemp, lstrip_idemp.
Qed.

Lemma split_app_sep c a b :
  split c (a +:+ String c b) = split c a ++ split c b.
Proof.
  induction a as [|d a IH].
  - rewrite app_empty. simpl. by rewrite decide_True.
  - rewrite app_cons. simpl. rewrite IH. case_decide; [done|].
    pose proof (split_not_nil c a). by destruct (split c a).
Qed.

Lemma no_star_lstrip s : ¬ re_search_star s → ¬ re_search_star (lstrip s).
Proof.
  induction s as [|c s IH]; [done|]. simpl.
  destruct (isspace c); [|done].
  destruct (decide (c = "*"%char)); [by intros []|done].
Qed.

Lemma no_star_rstrip s : ¬ re_search_star s → ¬ re_search_star (rstrip s).
Proof.
  induction s as [|c s IH]; [done|]. simpl.
  destruct (decide (c = "*"%char)) as [->|Hc]; [by intros []|].
  intros H. specialize (IH H). destruct (rstrip s) eqn:E.
  - destruct (isspace c); [done|]. simpl. by rewrite decide_False.
  - simpl. by rewrite decide_False.
Qed.

Lemma no_star_split c s e :
  ¬ re_search_star s → e ∈ split c s → ¬ re_search_star e.
Proof.
  revert e. induction s as [|d s IH]; intros e; simpl.
  - intros _ ->%list_elem_of_singleton. simpl. tauto.
  - destruct (decide (d = "*"%char)) as [->|Hd]; [by intros []|].
    intros H. case_decide.
    + intros [->|He]%elem_of_cons; [simpl; tauto|]. by apply IH.
    + pose proof (split_not_nil c s). destruct (split c s) as [|f fs] eqn:E; [done|].
      intros [->|He]%elem_of_cons.
      * simpl. rewrite decide_False by done. apply IH; [done|left].
      * apply IH; [done|by right].
Qed.

(** ** Runs of [table_list] against any server *)

Lemma execute_inr_can_query srv q self w rows st' :
  execute srv q (self, w) = (inr rows, st') → can_query srv self w.
Proof.
  unfold execute, cursor, open_db, conn_cursor, connect, assign_conn, can_query.
  run. destruct (conn self) as [c|] eqn:E; run.
  - rewrite E. by destruct (decide (c ∈ live w)).
  - destruct (password self) as [pw|] eqn:Ep; run; repeat (rewrite E; simpl); [|done].
    by destruct (accepts srv _ _ _ _).
Qed.

Lemma inherited_execute_inr_can_query srv q st rows st' :
  inherited (execute srv q) st = (inr rows, st') → can_query srv (base st.1) st.2.
Proof.
  destruct st as [self w]. unfold inherited.
  destruct (execute srv q (base self, w)) as [r [b w']] eqn:E.
  intros [= -> <-]. by apply execute_inr_can_query in E.
Qed.

Lemma match_tbl_run srv p st rows :
  can_query srv (base st.1) st.2 →
  answer srv (SelectTablesILike (schema st.1) p) = inr rows →
  match_tbl srv p st = (inr (col0 <$> rows), connected_q st).
Proof.
  intros Hq Ha. destruct st as [self w]. unfold match_tbl. step.
  rewrite (inherited_execute srv _ (self, w)) by done. simpl in *. by rewrite Ha.
Qed.

Lemma verify_tbl_run srv t st rows :
  can_query srv (base st.1) st.2 →
  answer srv (SelectTableEq (schema st.1) t) = inr rows →
  verify_tbl srv t st
  = (inr match rows with [] => false | _ :: _ => true end, connected_q st).
Proof.
  intros Hq Ha. destruct st as [self w]. unfold verify_tbl. step.
  rewrite (inherited_execute srv _ (self, w)) by done. simpl in *. rewrite Ha.
  by destruct rows.
Qed.

Lemma table_list_entry_run srv acc e st :
  can_query srv (base st.1) st.2 → answered srv (schema st.1) e →
  table_list_entry srv acc e st
  = (inr (acc ++ entry_names srv (schema st.1) e), connected_q st).
Proof.
  intros Hq [[rows Hv] Hm]. unfold table_list_entry, entry_names.
  pose proof (connected_q_can_query srv st Hq) as Hq'.
  pose proof (connected_q_idemp srv st Hq) as Hid.
  destruct (re_search_star e).
  - destruct (Hm I) as [found Hf].
    erewrite bind_run; [|erewrite bind_run; [|by apply match_tbl_run]; reflexivity].
    erewrite bind_run; [|by apply (verify_tbl_run srv e (connected_q st) rows)].
    rewrite Hid, Hf, Hv. destruct rows; by rewrite ?app_nil_r, ?app_assoc.
  - erewrite bind_run; [|reflexivity].
    erewrite bind_run; [|by apply (verify_tbl_run srv e st rows)].
    rewrite Hv. destruct rows; by rewrite ?app_nil_r.
Qed.

Lemma for_each_entries_run srv es acc st :
  can_query srv (base st.1) st.2 → Forall (answered srv (schema st.1)) es →
  for_each es (table_list_entry srv) acc st
  = (inr (acc ++ (es ≫= entry_names srv (schema st.1))),
     match es with [] => st | _ :: _ => connected_q st end).
Proof.
  intros Hq Hes. revert acc st Hq Hes.
  induction es as [|e es IH]; intros acc st Hq Hes; simpl.
  - by rewrite app_nil_r.
  - inversion_clear Hes as [|?? He Hes'].
    erewrite bind_run; [|by apply table_list_entry_run].
    rewrite IH; [|by apply connected_q_can_query|done].
    rewrite (connected_q_idemp srv st Hq), app_assoc. by destruct es.
Qed.

Lemma match_tbl_inr_can_query srv p st found st' :
  match_tbl srv p st = (inr found, st') → can_query srv (base st.1) st.2.
Proof.
  destruct st as [self w]. unfold match_tbl. step.
  destruct (inherited _ _) as [[e|rows] st1] eqn:E; [done|]. intros _.
  by apply inherited_execute_inr_can_query in E.
Qed.

Lemma verify_tbl_inr_can_query srv t st ok st' :
  verify_tbl srv t st = (inr ok, st') → can_query srv (base st.1) st.2.
Proof.
  destruct st as [self w]. unfold verify_tbl. step.
  destruct (inherited _ _) as [[e|rows] st1] eqn:E; [done|]. intros _.
  by apply inherited_execute_inr_can_query in E.
Qed.

Lemma table_list_entry_answered srv acc e st acc' st' :
  table_list_entry srv acc e st = (inr acc', st') →
  can_query srv (base st.1) st.2 ∧ answered srv (schema st.1) e.
Proof.
  unfold table_list_entry, answered. intros (acc1 & st1 & H1 & H2)%bind_inr.
  apply bind_inr in H2 as (ok & st2 & H2 & _).
  destruct (re_search_star e).
  - apply bind_inr in H1 as (found & st0 & H1 & [= <- <-]).
    pose proof H1 as ((rows' & Ha' & _) & _ & Hs & _)%match_tbl_inr.
    apply verify_tbl_inr in H2 as ((rows & Ha & _) & _). rewrite Hs in Ha.
    apply match_tbl_inr_can_query in H1. eauto.
  - injection H1 as <- <-.
    pose proof H2 as ((rows & Ha & _) & _)%verify_tbl_inr.
    apply verify_tbl_inr_can_query in H2. split; [done|]. split; [eauto|done].
Qed.

Lemma for_each_entries_answered srv es acc st acc' st' :
  for_each es (table_list_entry srv) acc st = (inr acc', st') →
  Forall (answered srv (schema st.1)) es ∧
  (es ≠ [] → can_query srv (base st.1) st.2).
Proof.
  revert acc st. induction es as [|e es IH]; intros acc st; simpl; [done|].
  intros (acc1 & st1 & H1 & H2)%bind_inr.
  pose proof H1 as (_ & _ & Hs & _)%table_list_entry_inr.
  apply table_list_entry_answered in H1 as [Hq He].
  apply IH in H2 as [Hes _]. rewrite Hs in Hes. split; [by constructor|done].
Qed.

(** The queries [table_list] sends from a state. *)
Lemma table_list_answered srv st l st' :
  table_list srv st = (inr l, st') →
  can_query srv (base st.1) st.2 ∧
  match tbls st.1 with
  | Some req => Forall (answered srv (schema st.1)) (split "," (strip req))
  | None => ∃ rows, answer srv (SelectTables (schema st.1)) = inr rows
  end.
Proof.
  destruct st as [self w]. unfold table_list. step.
  intros (acc & st1 & H1 & _)%bind_inr. simpl.
  destruct (tbls self) as [t|].
  - apply for_each_entries_answered in H1 as [Hes Hq].
    split; [apply Hq, split_not_nil|done].
  - apply bind_inr in H1 as (rows & st0 & H1 & _).
    pose proof H1 as Hq%inherited_execute_inr_can_query.
    apply inherited_execute_inr in H1 as (? & _). eauto.
Qed.

Lemma table_list_run srv st :
  can_query srv (base st.1) st.2 →
  match tbls st.1 with
  | Some req => Forall (answered srv (schema st.1)) (split "," (strip req))
  | None => ∃ rows, answer srv (SelectTables (schema st.1)) = inr rows
  end →
  table_list srv st
  = (inr (sorted (list_set
        match tbls st.1 with
        | None => match answer srv (SelectTables (schema st.1)) with
                  | inr rows => col0 <$> rows
                  | inl _ => []
                  end
        | Some req => split "," (strip req) ≫= entry_names srv (schema st.1)
        end)),
     connected_q (set_tbls st.1 (strip <$> tbls st.1), st.2)).
Proof.
  destruct st as [self w]. simpl. intros Hq Hans. unfold table_list.
  erewrite bind_run; [|reflexivity]. cbv beta iota.
  destruct (tbls self) as [t|] eqn:Et.
  - erewrite bind_run;
      [|erewrite bind_run; [|reflexivity];
        by apply (for_each_entries_run srv _ [] (set_tbls self (Some (strip t)), w))].
    simpl. pose proof (split_not_nil "," (strip t)).
    by destruct (split "," (strip t)).
  - destruct Hans as [rows Ha].
    erewrite bind_run;
      [|erewrite bind_run;
          [|by rewrite (inherited_execute srv _ (self, w)), Ha]; reflexivity].
    rewrite Ha. simpl. unfold mret, M_ret. do 3 f_equal.
    destruct self. simpl in *. by subst.
Qed.

(** X1: resolving twice gives the same list: once [table_list] has
    returned, running it again on the object returns the same list and
    changes nothing (no new connection, the request already trimmed). *)
Theorem table_list_twice srv st l st' :
  table_list srv st = (inr l, st') → table_list srv st' = (inr l, st').
Proof.
  intros H. pose proof (table_list_answered _ _ _ _ H) as [Hq Hans].
  rewrite table_list_run in H by done. injection H as <- <-.
  destruct st as [[b sch t x tl] w]. simpl in *.
  set (X := (mkDatabaseQuery b sch (strip <$> t) x tl, w)).
  assert (can_query srv (base X.1) X.2) as HqX by done.
  pose proof (connected_q_can_query srv X HqX) as Hq'.
  rewrite table_list_run; [|done|].
  - destruct t as [req|]; simpl; rewrite ?strip_idemp; f_equal;
      exact (connected_q_idemp srv X HqX).
  - destruct t as [req|]; simpl; by rewrite ?strip_idemp.
Qed.

(** On the sample shop, from the state the first run left. *)
Lemma table_list_twice_witness :
  table_list shop_server
    (mkDatabaseQuery (mkDatabase "localhost" "shopdb" "alice" (Some "pw") (Some 0))
       "public" (Some "x_*,orders") None [], [Connect 0])
  = (inr ["X_b"; "orders"; "x_a"],
     (mkDatabaseQuery (mkDatabase "localhost" "shopdb" "alice" (Some "pw") (Some 0))
        "public" (Some "x_*,orders") None [], [Connect 0])).
Proof.
  apply (table_list_twice shop_server (shop_query (Some " x_*,orders ") None, [])).
  vm_compute. reflexivity.
Defined.

(** X2: the order of the entries and their repetition do not matter: two
    requests with the same set of entries resolve, in the same schema, to
    the same list. *)
Theorem table_list_entry_order_irrelevant srv self1 w1 self2 w2 r1 r2 l1 l2 :
  schema self1 = schema self2 →
  tbls self1 = Some r1 → tbls self2 = Some r2 →
  (∀ e, e ∈ split "," (strip r1) ↔ e ∈ split "," (strip r2)) →
  (table_list srv (self1, w1)).1 = inr l1 →
  (table_list srv (self2, w2)).1 = inr l2 →
  l1 = l2.
Proof.
  intros Hs Hr1 Hr2 Hsame H1 H2.
  destruct (table_list srv (self1, w1)) as [? st1] eqn:E1.
  destruct (table_list srv (self2, w2)) as [? st2] eqn:E2. simpl in *. subst.
  apply table_list_inr in E1 as (-> & _). apply table_list_inr in E2 as (-> & _).
  simpl. rewrite Hr1, Hr2, Hs. apply sorted_proper. intros t.
  rewrite !list_elem_of_bind. by setoid_rewrite Hsame.
Qed.

Lemma table_list_entry_order_irrelevant_witness :
  ["orders"; "x_a"] = ["orders"; "x_a"].
Proof.
  apply (table_list_entry_order_irrelevant shop_server
           (shop_query (Some "orders,x_a") None) []
           (shop_query (Some "x_a,orders,x_a") None) []
           "orders,x_a" "x_a,orders,x_a").
  - reflexivity.
  - reflexivity.
  - reflexivity.
  - intros e. vm_compute (split _ _). vm_compute (split "," (strip "x_a,orders,x_a")).
    rewrite !elem_of_cons. tauto.
  - vm_compute. reflexivity.
  - vm_compute. reflexivity.
Defined.

(** X3: entries are resolved independently: for two requests without
    surrounding whitespace, the result of their comma-joined request holds
    exactly the tables of the two separate results. *)
Theorem table_list_joined_request srv self w self1 w1 self2 w2 r1 r2 l l1 l2 :
  schema self1 = schema self → schema self2 = schema self →
  tbls self = Some (r1 +:+ "," +:+ r2) →
  tbls self1 = Some r1 → tbls self2 = Some r2 →
  strip r1 = r1 → strip r2 = r2 → strip (r1 +:+ "," +:+ r2) = r1 +:+ "," +:+ r2 →
  (table_list srv (self, w)).1 = inr l →
  (table_list srv (self1, w1)).1 = inr l1 →
  (table_list srv (self2, w2)).1 = inr l2 →
  ∀ t, t ∈ l ↔ t ∈ l1 ∨ t ∈ l2.
Proof.
  intros Hs1 Hs2 Hr Hr1 Hr2 Hst1 Hst2 Hst H H1 H2 t.
  destruct (table_list srv (self, w)) as [? st] eqn:E.
  destruct (table_list srv (self1, w1)) as [? st1] eqn:E1.
  destruct (table_list srv (self2, w2)) as [? st2] eqn:E2. simpl in *. subst.
  apply table_list_inr in E as (-> & _).
  apply table_list_inr in E1 as (-> & _). apply table_list_inr in E2 as (-> & _).
  simpl. rewrite Hr, Hr1, Hr2, Hs1, Hs2, Hst, Hst1, Hst2.
  rewrite !elem_of_sorted_list_set.
  change ("," +:+ r2) with (String ","%char r2). rewrite split_app_sep.
  rewrite !list_elem_of_bind. setoid_rewrite elem_of_app. naive_solver.
Qed.

Lemma table_list_joined_request_witness :
  (table_list shop_server (shop_query (Some "x_*,orders") None, [])).1
  = inr ["X_b"; "orders"; "x_a"] ∧
  ∀ t, t ∈ ["X_b"; "orders"; "x_a"] ↔ t ∈ ["X_b"; "x_a"] ∨ t ∈ ["orders"].
Proof.
  split; [vm_compute; reflexivity|].
  apply (table_list_joined_request shop_server
           (shop_query (Some "x_*,orders") None) []
           (shop_query (Some "x_*") None) []
           (shop_query (Some "orders") None) [] "x_*" "orders").
  - reflexivity.
  - reflexivity.
  - reflexivity.
  - reflexivity.
  - reflexivity.
  - reflexivity.
  - reflexivity.
  - reflexivity.
  - vm_compute. reflexivity.
  - vm_compute. reflexivity.
  - vm_compute. reflexivity.
Defined.

(** X4: an error is never swallowed: if the server fails to answer one of
    the queries for one entry of the request, [table_list] raises and
    returns no list. *)
Theorem table_list_raises_on_failed_query srv self w req e :
  tbls self = Some req → e ∈ split "," (strip req) →
  ¬ answered srv (schema self) e →
  ∃ err, (table_list srv (self, w)).1 = inl err.
Proof.
  intros Hreq He Hno.
  destruct (table_list srv (self, w)) as [[err|l] st'] eqn:E; [by exists err|].
  apply table_list_answered in E as [_ Hans]. simpl in Hans. rewrite Hreq in Hans.
  destruct Hno. by apply (proj1 (Forall_forall _ _) Hans).
Qed.

(** On the sample shop, whose server rejects the text with a quote. *)
Lemma table_list_raises_on_failed_query_witness :
  ∃ err, (table_list shop_server (shop_query (Some "orders,x'") None, [])).1 = inl err.
Proof.
  apply (table_list_raises_on_failed_query shop_server
           (shop_query (Some "orders,x'") None) [] "orders,x'" "x'").
  - reflexivity.
  - apply (bool_decide_unpack _). vm_compute. reflexivity.
  - intros [[rows Hrows] _]. vm_compute in Hrows. discriminate Hrows.
Defined.

(** ** Patterns *)

Lemma like_percent p t :
  like (String "%" p) t
  = like p t || match t with "" => false | String _ t' => like (String "%" p) t' end.
Proof. by destruct t. Qed.

Lemma like_percent_all t : like "%" t = true.
Proof.
  induction t as [|c t IH]; [done|]. rewrite like_percent, IH. apply orb_true_r.
Qed.

Lemma like_app p1 p2 t1 t2 :
  like p1 t1 = true → like p2 t2 = true → like (p1 +:+ p2) (t1 +:+ t2) = true.
Proof.
  intros H1 H2. revert t1 H1. induction p1 as [|c p1 IH]; intros t1 H1.
  - by destruct t1.
  - rewrite app_cons. destruct (decide (c = "%"%char)) as [->|Hc].
    + induction t1 as [|d t1 IHt].
      * rewrite like_percent in *. rewrite orb_false_r in H1.
        rewrite (IH "" H1). done.
      * rewrite like_percent in H1. rewrite app_cons, like_percent.
        apply orb_true_iff in H1 as [H1|H1].
        -- apply IH in H1. rewrite app_cons in H1. by rewrite H1.
        -- rewrite (IHt H1). apply orb_true_r.
    + simpl in *. rewrite decide_False in * by done.
      destruct t1 as [|d t1]; [done|]. rewrite app_cons.
      apply andb_true_iff in H1 as [-> H1]. by rewrite (IH _ H1).
Qed.

Lemma like_star_self p : like (star_to_percent p) p = true.
Proof.
  induction p as [|c p IH]; [done|].
  change (star_to_percent (String c p))
    with (String (if decide (c = "*"%char) then "%"%char else c) (star_to_percent p)).
  destruct (decide (c = "*"%char)) as [->|Hc].
  - rewrite like_percent, (like_percent (star_to_percent p) p), IH.
    apply orb_true_r.
  - destruct (decide (c = "%"%char)) as [->|Hp].
    + rewrite like_percent, (like_percent (star_to_percent p) p), IH.
      apply orb_true_r.
    + simpl. rewrite decide_False by done.
      by rewrite IH, (bool_decide_eq_true_2 (c = c)), orb_true_r.
Qed.

Lemma lower_star_char c :
  lower (if decide (c = "*"%char) then "%"%char else c)
  = if decide (lower c = "*"%char) then "%"%char else lower c.
Proof. by destruct c as [[] [] [] [] [] [] [] []]. Qed.

Lemma lower_star_to_percent p :
  lower_str (star_to_percent p) = star_to_percent (lower_str p).
Proof.
  induction p as [|c p IH]; [done|]. simpl. by rewrite IH, lower_star_char.
Qed.

Lemma lower_str_app s t : lower_str (s +:+ t) = lower_str s +:+ lower_str t.
Proof. induction s as [|c s IH]; [done|]. rewrite app_cons. simpl. by rewrite IH. Qed.

Lemma star_to_percent_app s t :
  star_to_percent (s +:+ t) = star_to_percent s +:+ star_to_percent t.
Proof. induction s as [|c s IH]; [done|]. rewrite app_cons. simpl. by rewrite IH. Qed.

Lemma re_search_star_app_star s t : re_search_star (s +:+ String "*" t) = true.
Proof.
  induction s as [|c s IH]; [done|]. rewrite app_cons. simpl. by case_decide.
Qed.

(** ** Further properties of [table_list] against a catalog *)

(** X6: the request [*] (alone, whitespace around it apart) resolves to
    the same list as no request at all. *)
Theorem table_list_star_is_all srv cat self w req :
  serves srv cat → can_query srv (base self) w → sql_safe (schema self) →
  tbls self = Some req → strip req = "*" →
  ∃ l, (table_list srv (self, w)).1 = inr l ∧
       (table_list srv (set_tbls self None, w)).1 = inr l.
Proof.
  intros Hsrv Hq Hs Hreq Hstar.
  destruct (serves_tables _ _ Hsrv _ Hs) as (all & Hall & Hallp).
  destruct (serves_ilike _ _ Hsrv (schema self) "%" Hs I) as (found & Hf & Hfp).
  destruct (serves_eq _ _ Hsrv (schema self) "*" Hs I) as (lit & Hlit & Hlitp).
  rewrite (table_list_run srv (self, w)), (table_list_run srv (set_tbls self None, w));
    simpl; rewrite ?Hreq, ?Hstar; simpl; eauto.
  - eexists. split; [done|]. rewrite Hall. f_equal. apply sorted_proper. intros t.
    unfold entry_names. change (join "%" (split "*" "*")) with "%".
    change (re_search_star "*") with true. cbv iota.
    rewrite Hf, Hlit, app_nil_r.
    rewrite elem_of_app, Hfp, Hallp, list_elem_of_filter.
    unfold ilike. change (lower_str "%") with "%". rewrite like_percent_all.
    destruct lit as [|r lit].
    + rewrite elem_of_nil. naive_solver.
    + rewrite list_elem_of_singleton. split; [naive_solver|].
      intros [[_ ?]| ->]; [done|].
      destruct (decide ("*" ∈ tables_in cat (schema self))) as [|Hn]; [done|].
      by apply Hlitp in Hn.
  - repeat constructor; simpl; eauto.
Qed.

Lemma table_list_star_is_all_witness :
  ∃ l, (table_list shop_server (shop_query (Some " * ") None, [])).1 = inr l ∧
       (table_list shop_server (shop_query None None, [])).1 = inr l.
Proof.
  apply (table_list_star_is_all shop_server shop (shop_query (Some " * ") None) [] " * ").
  - apply catalog_server_serves.
  - reflexivity.
  - reflexivity.
  - reflexivity.
  - reflexivity.
Defined.

(** X7: an entry [p*] selects every table whose name starts with [p],
    upper and lower case letters being the same. *)
Theorem table_list_prefix_pattern srv cat self w req p t rest :
  serves srv cat → can_query srv (base self) w → sql_safe (schema self) →
  tbls self = Some req → sql_safe req →
  (p +:+ "*") ∈ split "," (strip req) →
  t ∈ tables_in cat (schema self) →
  lower_str t = lower_str p +:+ rest →
  ∃ l, (table_list srv (self, w)).1 = inr l ∧ t ∈ l.
Proof.
  intros Hsrv Hq Hs Hreq Hsafe He Ht Hpre.
  destruct (table_list_requested srv cat Hsrv self w req Hq Hs Hreq Hsafe)
    as (l & st' & -> & _ & _ & _ & Hl).
  exists l. split; [done|]. apply Hl. split; [done|].
  exists (p +:+ "*"). split; [done|]. right.
  rewrite re_search_star_app_star. split; [done|]. apply Is_true_true.
  unfold ilike. rewrite lower_star_to_percent, lower_str_app, star_to_percent_app, Hpre.
  apply like_app; [apply like_star_self|apply like_percent_all].
Qed.

Lemma table_list_prefix_pattern_witness :
  ∃ l, (table_list shop_server (shop_query (Some "x_*") None, [])).1 = inr l ∧ "X_b" ∈ l.
Proof.
  apply (table_list_prefix_pattern shop_server shop (shop_query (Some "x_*") None) []
           "x_*" "x_" "X_b" "b").
  - apply catalog_server_serves.
  - reflexivity.
  - reflexivity.
  - reflexivity.
  - reflexivity.
  - apply (bool_decide_unpack _). vm_compute. reflexivity.
  - apply (bool_decide_unpack _). vm_compute. reflexivity.
  - reflexivity.
Defined.

(** X8: an entry [*p*] selects every table whose name contains [p],
    upper and lower case letters being the same. *)
Theorem table_list_contains_pattern srv cat self w req p t before after :
  serves srv cat → can_query srv (base self) w → sql_safe (schema self) →
  tbls self = Some req → sql_safe req →
  ("*" +:+ p +:+ "*") ∈ split "," (strip req) →
  t ∈ tables_in cat (schema self) →
  lower_str t = before +:+ lower_str p +:+ after →
  ∃ l, (table_list srv (self, w)).1 = inr l ∧ t ∈ l.
Proof.
  intros Hsrv Hq Hs Hreq Hsafe He Ht Hmid.
  destruct (table_list_requested srv cat Hsrv self w req Hq Hs Hreq Hsafe)
    as (l & st' & -> & _ & _ & _ & Hl).
  exists l. split; [done|]. apply Hl. split; [done|].
  exists ("*" +:+ p +:+ "*"). split; [done|]. right.
  split; [done|]. apply Is_true_true.
  unfold ilike. rewrite lower_star_to_percent, Hmid.
  change (lower_str ("*" +:+ p +:+ "*")) with (String "*" (lower_str (p +:+ "*"))).
  rewrite lower_str_app.
  change (star_to_percent (String "*" (lower_str p +:+ lower_str "*")))
    with ("%" +:+ star_to_percent (lower_str p +:+ "*")).
  rewrite star_to_percent_app.
  apply like_app; [apply like_percent_all|].
  apply like_app; [apply like_star_self|apply like_percent_all].
Qed.

Lemma table_list_contains_pattern_witness :
  ∃ l, (table_list shop_server (shop_query (Some "*RDER*") None, [])).1 = inr l ∧
       "orders" ∈ l.
Proof.
  apply (table_list_contains_pattern shop_server shop (shop_query (Some "*RDER*") None) []
           "*RDER*" "RDER" "orders" "o" "s").
  - apply catalog_server_serves.
  - reflexivity.
  - reflexivity.
  - reflexivity.
  - reflexivity.
  - apply (bool_decide_unpack _). vm_compute. reflexivity.
  - apply (bool_decide_unpack _). vm_compute. reflexivity.
  - reflexivity.
Defined.

(** ** Further properties of the connection manager *)

Lemma bind_fail {St A B} (m : M St A) (f : A → M St B) s e s1 :
  m s = (inl e, s1) → (m ≫= f) s = (inl e, s1).
Proof. unfold mbind, M_bind. by intros ->. Qed.

Lemma execute_refused srv q self w pw :
  conn self = None → password self = Some pw →
  accepts srv (host self) (db self) (user self) pw = false →
  execute srv q (self, w) = (inl OperationalError, (self, w)).
Proof.
  intros Hc Hp Ha.
  unfold execute, cursor, open_db, conn_cursor, connect, assign_conn. run.
  rewrite Hc. simpl. rewrite Hc, Hp. simpl. by rewrite Ha.
Qed.

Lemma set_base_base self : set_base self (base self) = self.
Proof. by destruct self. Qed.

Lemma inherited_execute_refused srv q (self : DatabaseQuery) w pw :
  conn (base self) = None → password (base self) = Some pw →
  accepts srv (host (base self)) (db (base self)) (user (base self)) pw = false →
  inherited (execute srv q) (self, w) = (inl OperationalError, (self, w)).
Proof.
  intros Hc Hp Ha. unfold inherited.
  rewrite (execute_refused srv q (base self) w pw) by done.
  by rewrite set_base_base.
Qed.

Lemma table_list_entry_refused srv acc e (self : DatabaseQuery) w pw :
  conn (base self) = None → password (base self) = Some pw →
  accepts srv (host (base self)) (db (base self)) (user (base self)) pw = false →
  table_list_entry srv acc e (self, w) = (inl OperationalError, (self, w)).
Proof.
  intros Hc Hp Ha. unfold table_list_entry.
  pose proof (λ q, inherited_execute_refused srv q self w pw Hc Hp Ha) as Hex.
  destruct (re_search_star e).
  - apply bind_fail, bind_fail. unfold match_tbl.
    erewrite bind_run; [|reflexivity]. apply bind_fail, Hex.
  - erewrite bind_run; [|reflexivity]. apply bind_fail. unfold verify_tbl.
    erewrite bind_run; [|reflexivity]. apply bind_fail, Hex.
Qed.

Lemma table_list_refused srv (self : DatabaseQuery) w pw :
  conn (base self) = None → password (base self) = Some pw →
  accepts srv (host (base self)) (db (base self)) (user (base self)) pw = false →
  ∃ self', table_list srv (self, w) = (inl OperationalError, (self', w)).
Proof.
  intros Hc Hp Ha. unfold table_list.
  erewrite bind_run; [|reflexivity]. cbv beta iota. destruct (tbls self) as [t|].
  - eexists. apply bind_fail. erewrite bind_run; [|reflexivity].
    pose proof (split_not_nil "," (strip t)).
    destruct (split "," (strip t)) as [|e es]; [done|]. simpl.
    apply bind_fail. by apply (table_list_entry_refused srv [] e _ w pw).
  - eexists. apply bind_fail, bind_fail.
    by apply (inherited_execute_refused srv _ _ w pw).
Qed.

(** X10: when the server refuses the connection, the constructor of
    [DatabaseQuery] raises the connection error, whatever the request, and
    no connection has been opened. *)
Theorem DatabaseQuery_init_refused srv typed h d u s tl xc w :
  accepts srv h d u typed = false →
  DatabaseQuery_init srv typed h d u s tl xc w = (inl OperationalError, w).
Proof.
  intros Ha. unfold DatabaseQuery_init.
  destruct (table_list_refused srv
              (mkDatabaseQuery (Database_init typed h d u None) s tl (strip <$> xc) [])
              w typed) as [self' ->]; done.
Qed.

Lemma DatabaseQuery_init_refused_witness :
  DatabaseQuery_init shop_server "guess" "localhost" "shopdb" "alice" "public"
    (Some "x_*") None []
  = (inl OperationalError, []).
Proof.
  apply (DatabaseQuery_init_refused shop_server "guess" "localhost" "shopdb" "alice"
           "public" (Some "x_*") None []).
  reflexivity.
Defined.

Lemma can_query_is_connected srv self w :
  can_query srv self w → is_connected (connected (self, w)).1 (connected (self, w)).2.
Proof.
  unfold can_query, connected, is_connected. simpl.
  destruct (conn self) as [c|] eqn:E; simpl.
  - rewrite E. eauto.
  - intros _. eexists. split; [done|]. set_solver.
Qed.

(** X12: when [open_db] fails on an object that holds a connection, that
    connection has been closed and the object still holds it: queries then
    raise [InterfaceError] and do not connect again. *)
Theorem failed_reopen_blocks_queries srv self w c pw q :
  conn self = Some c → password self = Some pw →
  accepts srv (host self) (db self) (user self) pw = false →
  open_db srv (self, w) = (inl OperationalError, (self, Close c :: w)) ∧
  execute srv q (self, Close c :: w) = (inl InterfaceError, (self, Close c :: w)).
Proof.
  intros Hc Hp Ha. split.
  - unfold open_db, conn_close, connect, assign_conn. run. rewrite Hc, Hp. simpl.
    by rewrite Ha.
  - unfold execute, cursor, conn_cursor. run. rewrite Hc. simpl. rewrite Hc. simpl.
    rewrite decide_False; [done|]. set_solver.
Qed.

(** On the sample shop, after the password of the object was changed. *)
Lemma failed_reopen_blocks_queries_witness :
  open_db shop_server
    (mkDatabase "localhost" "shopdb" "alice" (Some "changed") (Some 0), [Connect 0])
  = (inl OperationalError,
     (mkDatabase "localhost" "shopdb" "alice" (Some "changed") (Some 0),
      [Close 0; Connect 0])) ∧
  execute shop_server (SelectTables "public")
    (mkDatabase "localhost" "shopdb" "alice" (Some "changed") (Some 0),
     [Close 0; Connect 0])
  = (inl InterfaceError,
     (mkDatabase "localhost" "shopdb" "alice" (Some "changed") (Some 0),
      [Close 0; Connect 0])).
Proof.
  apply (failed_reopen_blocks_queries shop_server
           (mkDatabase "localhost" "shopdb" "alice" (Some "changed") (Some 0))
           [Connect 0] 0 "changed" (SelectTables "public")).
  - reflexivity.
  - reflexivity.
  - reflexivity.
Defined.

Lemma run_calls_snoc srv cs c st :
  run_calls srv (cs ++ [c]) st = run_call srv c (run_calls srv cs st).
Proof. unfold run_calls. by rewrite foldl_app. Qed.

Lemma run_call_fields srv c st :
  host (run_call srv c st).1 = host st.1 ∧ db (run_call srv c st).1 = db st.1 ∧
  user (run_call srv c st).1 = user st.1 ∧
  password (run_call srv c st).1 = password st.1.
Proof.
  assert (∀ st, host (open_db srv st).2.1 = host st.1 ∧ db (open_db srv st).2.1 = db st.1 ∧
                user (open_db srv st).2.1 = user st.1 ∧
                password (open_db srv st).2.1 = password st.1) as Hopen.
  { intros [self w]. rewrite open_db_state.
    destruct (password self); [destruct (accepts _ _ _ _ _)|]; done. }
  assert (∀ st, host (cursor srv st).2.1 = host st.1 ∧ db (cursor srv st).2.1 = db st.1 ∧
                user (cursor srv st).2.1 = user st.1 ∧
                password (cursor srv st).2.1 = password st.1) as Hcur.
  { intros [self w]. rewrite cursor_state. destruct (conn self); [done|apply Hopen]. }
  destruct c; simpl.
  - apply Hopen.
  - apply Hcur.
  - destruct st as [self w]. rewrite close_state. by destruct (conn self).
  - rewrite execute_state. apply Hcur.
Qed.

Lemma run_calls_fields srv cs st :
  host (run_calls srv cs st).1 = host st.1 ∧ db (run_calls srv cs st).1 = db st.1 ∧
  user (run_calls srv cs st).1 = user st.1 ∧
  password (run_calls srv cs st).1 = password st.1.
Proof.
  revert st. induction cs as [|c cs IH]; intros st; [done|]. simpl.
  destruct (IH (run_call srv c st)) as (-> & -> & -> & ->). apply run_call_fields.
Qed.

Lemma close_after_calls srv typed h d u p cs :
  conn (run_calls srv (cs ++ [CallClose]) (Database_init typed h d u p, [])).1 = None ∧
  live (run_calls srv (cs ++ [CallClose]) (Database_init typed h d u p, [])).2 = ∅.
Proof.
  rewrite run_calls_snoc. simpl.
  destruct (run_calls_holds srv cs (Database_init typed h d u p, [])) as [_ Hl].
  { split; [done|]. simpl. set_solver. }
  destruct (run_calls srv cs _) as [self w]. rewrite close_state. simpl in Hl.
  destruct (conn self) as [c|] eqn:E; simpl.
  - split; [done|]. apply leibniz_equiv. intros k. split; [|set_solver].
    intros [Hk Hne]%elem_of_difference. apply Hl in Hk. set_solver.
  - split; [done|]. apply leibniz_equiv. intros k. split; [intros ?%Hl|]; set_solver.
Qed.

(** X13: [close] releases the manager whatever happened before: after any
    sequence of calls followed by [close], the object holds no connection
    and none of its connections is open. *)
Theorem close_releases srv typed h d u p cs :
  conn (run_calls srv (cs ++ [CallClose]) (Database_init typed h d u p, [])).1 = None ∧
  live (run_calls srv (cs ++ [CallClose]) (Database_init typed h d u p, [])).2 = ∅.
Proof. apply close_after_calls. Qed.

(** X14: [close] is not final: the next query after it connects again (the
    server accepting) and is answered, and the new connection is then the
    only one open. *)
Theorem query_after_close_reconnects srv typed h d u p cs q :
  accepts srv h d u typed = true →
  (execute srv q
     (run_calls srv (cs ++ [CallClose]) (Database_init typed h d u p, []))).1
  = answer srv q ∧
  size (live (execute srv q
     (run_calls srv (cs ++ [CallClose]) (Database_init typed h d u p, []))).2.2) = 1.
Proof.
  intros Ha.
  destruct (close_after_calls srv typed h d u p cs) as [Hc Hl].
  destruct (run_calls_fields srv (cs ++ [CallClose]) (Database_init typed h d u p, []))
    as (Hh & Hd & Hu & Hp).
  destruct (run_calls srv (cs ++ [CallClose]) _) as [self w]. simpl in *.
  rewrite execute_connected.
  - split; [done|]. unfold connected. simpl. rewrite Hc. simpl. rewrite Hl.
    by rewrite union_empty_r_L, size_singleton.
  - unfold can_query. by rewrite Hc, Hp, Hh, Hd, Hu.
Qed.

(** On the sample shop: open, query, close, query again. *)
Lemma query_after_close_reconnects_witness :
  (execute shop_server (SelectTables "public")
     (run_calls shop_server ([CallOpenDb; CallExecute (SelectTables "public")] ++ [CallClose])
        (Database_init "pw" "localhost" "shopdb" "alice" None, []))).1
  = answer shop_server (SelectTables "public") ∧
  size (live (execute shop_server (SelectTables "public")
     (run_calls shop_server ([CallOpenDb; CallExecute (SelectTables "public")] ++ [CallClose])
        (Database_init "pw" "localhost" "shopdb" "alice" None, []))).2.2) = 1.
Proof.
  apply (query_after_close_reconnects shop_server "pw" "localhost" "shopdb" "alice" None
           [CallOpenDb; CallExecute (SelectTables "public")] (SelectTables "public")).
  reflexivity.
Defined.

(** ** Further properties of [column_list] *)

Lemma filter_keeps_all {A} (P : A → Prop) `{∀ x, Decision (P x)} (l : list A) :
  (∀ x, x ∈ l → P x) → filter P l = l.
Proof.
  induction l as [|x l IH]; intros Hall; [done|].
  rewrite filter_cons_True by (apply Hall; left).
  rewrite IH; [done|]. intros y Hy. apply Hall. by right.
Qed.

(** X16: an exclusion list that is empty or made of whitespace excludes
    nothing: all columns of the table are returned (no column has the
    empty name). *)
Theorem column_list_blank_exclusion srv cat typed h d u s tl x w self w' tbl :
  serves srv cat → sql_safe s → sql_safe tbl →
  DatabaseQuery_init srv typed h d u s tl (Some x) w = (inr self, w') →
  blank x → "" ∉ columns_of cat s tbl →
  (column_list srv tbl (self, w')).1 = inr (columns_of cat s tbl).
Proof.
  intros Hsrv Hs Ht (Hc & Hsch & Hx & _)%DatabaseQuery_init_inr Hblank Hno.
  rewrite (column_list_serves srv cat Hsrv tbl (self, w'));
    [|by apply is_connected_can_query|by simpl; rewrite Hsch|done].
  simpl. rewrite Hx, Hsch. simpl. rewrite strip_blank by done. simpl.
  rewrite filter_keeps_all; [done|].
  intros c Hin ->%list_elem_of_singleton. done.
Qed.

Lemma column_list_blank_exclusion_witness :
  (column_list shop_server "orders"
     (mkDatabaseQuery (mkDatabase "localhost" "shopdb" "alice" (Some "pw") (Some 0))
        "public" (Some "orders") (Some "") ["orders"],
      [Connect 0])).1 = inr ["id"; "name"; "created_at"; "total"].
Proof.
  apply (column_list_blank_exclusion shop_server shop "pw" "localhost" "shopdb"
           "alice" "public" (Some "orders") "  " []).
  - apply catalog_server_serves.
  - reflexivity.
  - reflexivity.
  - vm_compute. reflexivity.
  - reflexivity.
  - apply (bool_decide_unpack _). vm_compute. reflexivity.
Defined.

(** ** Further properties of the writer and of the script *)

Lemma closed_new_document : closed 0 [Element Spreadsheet []].
Proof.
  intros i e k Hi Hk. destruct i as [|i]; simpl in Hi.
  - injection Hi as <-. by apply elem_of_nil in Hk.
  - by rewrite lookup_nil in Hi.
Qed.

(** X17: on a document whose elements refer to each other properly, the
    three calls the script makes for a table add one sheet, named after
    the table, with one row of text cells for the given names, after the
    sheets already there, which stay as they are; the document can then
    take the next table. *)
Theorem sheet_appended (ods : OdsFile) st root kids t cs :
  wkbook ods = Some root →
  st !! root = Some (Element Spreadsheet kids) → closed root st →
  ∃ st', (tbl_sheet ← new_sheet t;
          add_row_to_sheet cs tbl_sheet;; add_sheet tbl_sheet) (ods, st)
         = (inr tt, (ods, st')) ∧
         sheets_of st' root = sheets_of st root ++ [Sheet t [text_cell <$> cs]] ∧
         closed root st' ∧
         st' !! root = Some (Element Spreadsheet (kids ++ [length st])).
Proof.
  intros Hwk Hroot Hclosed. exists (written st root t cs). split; [|split; [|split]].
  - erewrite bind_run; [|apply new_sheet_run].
    erewrite bind_run; [|apply add_row_to_sheet_run].
    by apply add_sheet_run.
  - by eapply sheets_of_written.
  - by eapply closed_written.
  - by apply written_root.
Qed.

(** On a new document. *)
Lemma sheet_appended_witness :
  ∃ st', (tbl_sheet ← new_sheet "a";
          add_row_to_sheet ["col1"; "col2"] tbl_sheet;; add_sheet tbl_sheet)
           (mkOdsFile (Some "out.ods") (Some 0), [Element Spreadsheet []])
         = (inr tt, (mkOdsFile (Some "out.ods") (Some 0), st')) ∧
         sheets_of st' 0 = [] ++ [Sheet "a" [text_cell <$> ["col1"; "col2"]]] ∧
         closed 0 st' ∧
         st' !! 0 = Some (Element Spreadsheet ([] ++ [1])).
Proof.
  apply (sheet_appended (mkOdsFile (Some "out.ods") (Some 0))
           [Element Spreadsheet []] 0 [] "a" ["col1"; "col2"]).
  - reflexivity.
  - reflexivity.
  - apply closed_new_document.
Defined.

Lemma column_list_outcome srv tbl (self : DatabaseQuery) w :
  is_connected (base self) w →
  ∃ r, column_list srv tbl (self, w) = (r, (self, w)).
Proof.
  intros Hc. unfold column_list. erewrite bind_run; [|reflexivity]. cbv beta iota.
  pose proof (inherited_execute srv (SelectColumns (schema self) tbl) (self, w)
                (is_connected_can_query srv _ _ Hc)) as Hex.
  rewrite connected_q_is_connected in Hex by done.
  destruct (answer srv (SelectColumns (schema self) tbl)) as [e|rows].
  - eexists. by apply bind_fail.
  - erewrite bind_run; [|exact Hex]. destruct (xcols self); by eexists.
Qed.

Lemma add_cells_ok (ods : OdsFile) row cs st :
  ∃ st', for_each cs
           (λ _ item, cell ← new_element (TableCell "string" item);
                      addElement row cell) tt (ods, st)
         = (inr tt, (ods, st')).
Proof.
  revert st. induction cs as [|c cs IH]; intros st; simpl; [by eexists|].
  erewrite bind_run; [|apply add_cell_run]. apply IH.
Qed.

Lemma add_row_to_sheet_ok (ods : OdsFile) cs n st :
  ∃ st', add_row_to_sheet cs n (ods, st) = (inr tt, (ods, st')).
Proof.
  unfold add_row_to_sheet.
  erewrite bind_run; [|reflexivity]. erewrite bind_run; [|reflexivity].
  apply add_cells_ok.
Qed.

Lemma write_sheets_outcome srv ts (self : DatabaseQuery) w (ods : OdsFile) st root :
  is_connected (base self) w → wkbook ods = Some root →
  ∃ r st', write_sheets srv ts ((self, w), (ods, st)) = (r, ((self, w), (ods, st'))).
Proof.
  intros Hc Hwk. unfold write_sheets. revert st.
  induction ts as [|t ts IH]; intros st; simpl; [by eexists _, _|].
  destruct (column_list_outcome srv t self w Hc) as [[e|cs] Hcol].
  - eexists _, _. apply bind_fail.
    erewrite bind_run; [|unfold on_ods; by rewrite new_sheet_run].
    apply bind_fail. unfold on_db. by rewrite Hcol.
  - destruct (add_row_to_sheet_ok ods cs (length st) (st ++ [Element (Table t) []]))
      as [st1 Hrow].
    destruct (IH (alter (attach (length st)) root st1)) as (r & st' & Hrest).
    exists r, st'. erewrite bind_run; [exact Hrest|].
    erewrite bind_run; [|unfold on_ods; by rewrite new_sheet_run].
    erewrite bind_run; [|unfold on_db; by rewrite Hcol].
    erewrite bind_run; [|unfold on_ods; by rewrite Hrow].
    unfold on_ods. by rewrite (add_sheet_run _ _ root).
Qed.

(** X19: when the script fails after the constructor has returned, the
    connection the constructor opened is never closed: it is still open
    when the script ends, and no file has been written. *)
Theorem main_error_leaves_connection_open srv typed h d u s tl xc out w self w1 e :
  DatabaseQuery_init srv typed h d u s tl xc w = (inr self, w1) →
  (main srv typed h d u s tl xc out w).1 = inl e →
  (main srv typed h d u s tl xc out w).2 = w1 ∧
  ∃ c, conn (base self) = Some c ∧ c ∈ live w1.
Proof.
  intros Hinit Hfail.
  pose proof (DatabaseQuery_init_inr _ _ _ _ _ _ _ _ _ _ _ Hinit) as (Hc & _).
  split; [|exact Hc].
  destruct (write_sheets_outcome srv (tbl_list self) self w1
              (mkOdsFile (Some out) (Some 0)) [Element Spreadsheet []] 0 Hc eq_refl)
    as (r & st' & Hrun).
  revert Hfail. unfold main. rewrite Hinit.
  erewrite bind_run; [|reflexivity]. destruct r as [e'|[]].
  - erewrite bind_fail; [|exact Hrun]. done.
  - erewrite bind_run; [|exact Hrun]. erewrite bind_run; [|reflexivity].
    unfold on_db, inherited, close, conn_close, assign_conn. run.
    by destruct (conn (base self)).
Qed.

(** On a catalog with a table named [o'x]: the query for its columns is
    refused as text. *)
Lemma main_error_leaves_connection_open_witness :
  (main quoted_server "pw" "localhost" "shopdb" "alice" "public" None None
     "out.ods" []).2 = [Connect 0] ∧
  ∃ c, conn (mkDatabase "localhost" "shopdb" "alice" (Some "pw") (Some 0)) = Some c ∧
       c ∈ live [Connect 0].
Proof.
  apply (main_error_leaves_connection_open quoted_server "pw" "localhost" "shopdb"
           "alice" "public" None None "out.ods" []
           (mkDatabaseQuery (mkDatabase "localhost" "shopdb" "alice" (Some "pw") (Some 0))
              "public" None None ["o'x"; "orders"])
           [Connect 0] (DatabaseError "syntax error")).
  - vm_compute. reflexivity.
  - vm_compute. reflexivity.
Defined.

(** * The code against a catalog that compares names cut to 63 bytes *)

(** ** The servers *)

Lemma plain_sql_safe v : plain v → sql_safe v.
Proof. unfold plain. by intros [? _]%andb_prop_elim. Qed.

Lemma plain_byte_length v : plain v → byte_length v ≤ 63.
Proof. unfold plain. intros [_ H]%andb_prop_elim. by apply Is_true_true, Nat.leb_le in H. Qed.

Lemma clip_short n v : byte_length v ≤ n → clip n v = v.
Proof.
  revert n. induction v as [|c v IH]; intros n Hn; [done|]. simpl in *.
  destruct (nat_of_ascii c <? 128)%nat.
  - rewrite (proj2 (Nat.leb_le 1 n)) by lia. f_equal. apply IH. lia.
  - rewrite (proj2 (Nat.leb_le 2 n)) by lia. f_equal. apply IH. lia.
Qed.

Lemma name_literal_plain v : plain v → name_literal v = v.
Proof. intros Hv%plain_byte_length. by apply clip_short. Qed.

Lemma serves_serves_plain srv cat : serves srv cat → serves_plain srv cat.
Proof.
  intros [H1 H2 H3 H4]. split.
  - intros s Hs%plain_sql_safe. by apply H1.
  - intros s p Hs%plain_sql_safe Hp. by apply H2.
  - intros s t Hs%plain_sql_safe Ht%plain_sql_safe. by apply H3.
  - intros s t Hs%plain_sql_safe Ht%plain_sql_safe. by apply H4.
Qed.

Lemma catalog_server_serves_plain pw cat : serves_plain (catalog_server pw cat) cat.
Proof. apply serves_serves_plain, catalog_server_serves. Qed.

Lemma catalog_server_cut_serves_plain pw cat :
  serves_plain (catalog_server_cut pw cat) cat.
Proof.
  pose proof (catalog_server_serves pw cat) as [H1 H2 H3 H4].
  split; simpl in *.
  - intros s Hs. rewrite (name_literal_plain s Hs).
    by apply H1, plain_sql_safe.
  - intros s p Hs Hp. rewrite (name_literal_plain s Hs).
    by apply H2; [apply plain_sql_safe|].
  - intros s t Hs Ht. rewrite (name_literal_plain s Hs), (name_literal_plain t Ht).
    by apply H3; apply plain_sql_safe.
  - intros s t Hs Ht. rewrite (name_literal_plain s Hs), (name_literal_plain t Ht).
    by apply H4; apply plain_sql_safe.
Qed.

(** ** Resolution of tables *)

Lemma entry_names_plain srv cat s e :
  serves_plain srv cat → plain s → plain e →
  answered srv s e ∧
  ∀ t, t ∈ entry_names srv s e ↔ t ∈ tables_in cat s ∧ selects e t.
Proof.
  intros Hsrv Hs He.
  destruct (plain_eq _ _ Hsrv s e Hs He) as (lit & Hlit & Hlitp).
  destruct (plain_ilike _ _ Hsrv s (join "%" (split "*" e)) Hs) as (found & Hf & Hfp).
  { rewrite join_split_star. by apply sql_safe_star_to_percent, plain_sql_safe. }
  split; [split; eauto|].
  intros t. unfold entry_names, selects. rewrite Hf, Hlit, elem_of_app.
  rewrite join_split_star in Hfp.
  assert (t ∈ match lit with [] => [] | _ :: _ => [e] end
          ↔ t ∈ tables_in cat s ∧ t = e) as ->.
  { destruct lit as [|r lit].
    - rewrite elem_of_nil. split; [done|]. intros [Ht ->]. by apply Hlitp.
    - rewrite list_elem_of_singleton. split; [|naive_solver]. intros ->.
      split; [|done].
      destruct (decide (e ∈ tables_in cat s)) as [|Hn]; [done|]. by apply Hlitp in Hn. }
  destruct (re_search_star e).
  - rewrite Hfp, list_elem_of_filter. naive_solver.
  - rewrite elem_of_nil. naive_solver.
Qed.

Lemma table_list_plain srv cat self w :
  serves_plain srv cat → can_query srv (base self) w → plain (schema self) →
  (∀ req, tbls self = Some req → Forall (λ e, plain e) (split "," (strip req))) →
  ∃ l, table_list srv (self, w)
       = (inr l, connected_q (set_tbls self (strip <$> tbls self), w)) ∧
       StronglySorted String.le l ∧ NoDup l ∧
       ∀ t, t ∈ l ↔
            t ∈ tables_in cat (schema self) ∧
            match tbls self with
            | None => True
            | Some req => ∃ e, e ∈ split "," (strip req) ∧ selects e t
            end.
Proof.
  intros Hsrv Hq Hs Hreq.
  destruct (plain_tables _ _ Hsrv _ Hs) as (all & Hall & Hallp).
  rewrite (table_list_run srv (self, w)); simpl; [|done|].
  - eexists. split; [done|]. split; [apply sorted_StronglySorted|].
    split; [apply NoDup_sorted_list_set|].
    intros t. rewrite elem_of_sorted_list_set.
    destruct (tbls self) as [req|] eqn:E.
    + rewrite list_elem_of_bind. split.
      * intros (e & Ht & He).
        apply (entry_names_plain srv cat _ e Hsrv Hs) in Ht as [Ht Hsel].
        -- eauto.
        -- by apply (proj1 (Forall_forall _ _) (Hreq _ eq_refl)).
      * intros (Ht & e & He & Hsel). exists e. split; [|done].
        apply (entry_names_plain srv cat _ e Hsrv Hs); [|done].
        by apply (proj1 (Forall_forall _ _) (Hreq _ eq_refl)).
    + rewrite Hall, Hallp. naive_solver.
  - destruct (tbls self) as [req|]; [|eauto].
    apply Forall_forall. intros e He.
    apply (entry_names_plain srv cat _ e Hsrv Hs).
    by apply (proj1 (Forall_forall _ _) (Hreq _ eq_refl)).
Qed.



Example table_list_wildcard_ex :
  (table_list shop_server (shop_query (Some " x_*,a*b ") None, [])).1
  = inr ["X_b"; "a*b"; "x_a"].
Proof. vm_compute. reflexivity. Qed.

(** C5 as stated does not hold.  The entry [x'] has no wildcard, is short
    and names no table, yet [table_list] raises: the text of its lookup
    ends in [table_name = 'x'';] and the server rejects it.  And an entry
    of 70 letters, free of quotes, names no table, yet it is returned:
    PostgreSQL 12 cuts it to the 63 letters that name a table. *)
Lemma table_list_unknown_entry_not_dropped :
  ¬ (∀ srv cat self w req e,
       serves_plain srv cat → can_query srv (base self) w → plain (schema self) →
       tbls self = Some req → e ∈ split "," (strip req) →
       ¬ re_search_star e → e ∉ tables_in cat (schema self) →
       byte_length e ≤ 63 →
       ∃ l, (table_list srv (self, w)).1 = inr l ∧ e ∉ l) ∧
  ¬ (∀ srv cat self w req e,
       serves_plain srv cat → can_query srv (base self) w → plain (schema self) →
       tbls self = Some req → e ∈ split "," (strip req) →
       ¬ re_search_star e → e ∉ tables_in cat (schema self) →
       sql_safe req →
       ∃ l, (table_list srv (self, w)).1 = inr l ∧ e ∉ l).
Proof.
  split; intros H.
  - destruct (H shop_server shop (shop_query (Some "orders,x'") None) []
                "orders,x'" "x'") as (l & Hl & _).
    + apply catalog_server_serves_plain.
    + reflexivity.
    + reflexivity.
    + reflexivity.
    + apply (bool_decide_unpack _). vm_compute. reflexivity.
    + simpl. exact id.
    + apply (bool_decide_unpack _). vm_compute. reflexivity.
    + simpl. lia.
    + vm_compute in Hl. discriminate Hl.
  - destruct (H archive_server archive
                (query_object "pw" "localhost" "shopdb" "alice" "public"
                   (Some (letters 70)) None) []
                (letters 70) (letters 70)) as (l & Hl & Hno).
    + apply catalog_server_cut_serves_plain.
    + reflexivity.
    + reflexivity.
    + reflexivity.
    + apply (bool_decide_unpack _). vm_compute. reflexivity.
    + simpl. exact id.
    + apply (bool_decide_unpack _). vm_compute. reflexivity.
    + reflexivity.
    + vm_compute in Hl. injection Hl as <-. apply Hno. left.
Qed.

(** C5, amended: when the schema name and every entry of the request read
    as themselves in the SQL text (no single quote, no backslash, at most
    63 bytes), an entry without a wildcard that names no table of the
    schema is dropped silently: [table_list] returns, the entry is not in
    the list, and the list holds exactly the tables that the other
    entries select. *)
Theorem table_list_drops_unknown_entry srv cat self w req e :
  serves_plain srv cat → can_query srv (base self) w → plain (schema self) →
  tbls self = Some req →
  Forall (λ e, plain e) (split "," (strip req)) →
  e ∈ split "," (strip req) → ¬ re_search_star e →
  e ∉ tables_in cat (schema self) →
  ∃ l, (table_list srv (self, w)).1 = inr l ∧ (e ∉ l) ∧
       ∀ t, t ∈ l ↔
            t ∈ tables_in cat (schema self) ∧
            ∃ e', e' ∈ split "," (strip req) ∧ e' ≠ e ∧ selects e' t.
Proof.
  intros Hsrv Hq Hs Hreq Hplain He Hstar Hno.
  destruct (table_list_plain srv cat self w Hsrv Hq Hs) as (l & -> & _ & _ & Hl).
  { intros req' Hreq'. rewrite Hreq in Hreq'. by injection Hreq' as <-. }
  rewrite Hreq in Hl. exists l. split; [done|]. split.
  - by intros [? _]%Hl.
  - intros t. rewrite Hl. split.
    + intros (Ht & e' & He' & Hsel). split; [done|]. exists e'.
      split; [done|]. split; [|done]. intros ->.
      destruct Hsel as [->|[? _]]; done.
    + intros (Ht & e' & He' & _ & Hsel). eauto.
Qed.

(** On the sample shop, which has no table [nope]. *)
Lemma table_list_drops_unknown_entry_witness :
  ∃ l, (table_list shop_server (shop_query (Some "nope,orders,x_*") None, [])).1 = inr l ∧
       ("nope" ∉ l) ∧
       ∀ t, t ∈ l ↔
            t ∈ tables_in shop "public" ∧
            ∃ e', e' ∈ split "," (strip "nope,orders,x_*") ∧ e' ≠ "nope" ∧ selects e' t.
Proof.
  apply (table_list_drops_unknown_entry shop_server shop
           (shop_query (Some "nope,orders,x_*") None) [] "nope,orders,x_*" "nope").
  - apply catalog_server_serves_plain.
  - reflexivity.
  - reflexivity.
  - reflexivity.
  - apply (bool_decide_unpack _). vm_compute. reflexivity.
  - apply (bool_decide_unpack _). vm_compute. reflexivity.
  - simpl. exact id.
  - apply (bool_decide_unpack _). vm_compute. reflexivity.
Defined.

Example table_list_drops_unknown_ex :
  (table_list shop_server (shop_query (Some "nope,orders,x_*") None, [])).1
  = inr ["X_b"; "orders"; "x_a"].
Proof. vm_compute. reflexivity. Qed.

(** X5: with a schema name and entries that read as themselves in the SQL
    text (no single quote, no backslash, at most 63 bytes), [table_list]
    never invents a name: with or without a request, every name it
    returns is a table of the schema. *)
Theorem table_list_only_existing_tables srv cat self w :
  serves_plain srv cat → can_query srv (base self) w → plain (schema self) →
  (∀ req, tbls self = Some req → Forall (λ e, plain e) (split "," (strip req))) →
  ∃ l, (table_list srv (self, w)).1 = inr l ∧
       ∀ t, t ∈ l → t ∈ tables_in cat (schema self).
Proof.
  intros Hsrv Hq Hs Hplain.
  destruct (table_list_plain srv cat self w Hsrv Hq Hs Hplain) as (l & -> & _ & _ & Hl).
  exists l. split; [done|]. by intros t [? _]%Hl.
Qed.

Lemma table_list_only_existing_tables_witness :
  ∃ l, (table_list archive_server
          (query_object "pw" "localhost" "shopdb" "alice" "public"
             (Some "a*,nope,Orders") None, [])).1 = inr l ∧
       ∀ t, t ∈ l → t ∈ tables_in archive "public".
Proof.
  apply (table_list_only_existing_tables archive_server archive
           (query_object "pw" "localhost" "shopdb" "alice" "public"
              (Some "a*,nope,Orders") None) []).
  - apply catalog_server_cut_serves_plain.
  - reflexivity.
  - reflexivity.
  - intros req [= <-]. apply (bool_decide_unpack _). vm_compute. reflexivity.
Defined.

(** X9: a request without any wildcard, whose entries read as themselves
    in the SQL text (no single quote, no backslash, at most 63 bytes, the
    schema name likewise), resolves to exactly those of its entries that
    are, letter for letter, names of tables of the schema. *)
Theorem table_list_literal_request srv cat self w req :
  serves_plain srv cat → can_query srv (base self) w → plain (schema self) →
  tbls self = Some req →
  Forall (λ e, plain e) (split "," (strip req)) → ¬ re_search_star req →
  ∃ l, (table_list srv (self, w)).1 = inr l ∧
       ∀ t, t ∈ l ↔ t ∈ tables_in cat (schema self) ∧ t ∈ split "," (strip req).
Proof.
  intros Hsrv Hq Hs Hreq Hplain Hno.
  destruct (table_list_plain srv cat self w Hsrv Hq Hs) as (l & -> & _ & _ & Hl).
  { intros req' Hreq'. rewrite Hreq in Hreq'. by injection Hreq' as <-. }
  rewrite Hreq in Hl. exists l. split; [done|]. intros t. rewrite Hl. split.
  - intros (Ht & e & He & [->|[Hstar _]]); [done|].
    destruct (no_star_split "," (strip req) e); [|done..].
    by apply no_star_lstrip, no_star_rstrip.
  - intros [Ht He]. split; [done|]. exists t. split; [done|by left].
Qed.

Lemma table_list_literal_request_witness :
  ∃ l, (table_list shop_server (shop_query (Some "orders,Orders,x_a") None, [])).1 = inr l ∧
       ∀ t, t ∈ l ↔ t ∈ tables_in shop "public" ∧ t ∈ ["orders"; "Orders"; "x_a"].
Proof.
  apply (table_list_literal_request shop_server shop
           (shop_query (Some "orders,Orders,x_a") None) [] "orders,Orders,x_a").
  - apply catalog_server_serves_plain.
  - reflexivity.
  - reflexivity.
  - reflexivity.
  - apply (bool_decide_unpack _). vm_compute. reflexivity.
  - simpl. exact id.
Defined.

(** ** The first query of a manager *)

(** X11: the first query of a manager that holds no connection, the
    server accepting the connection, opens one and returns or raises
    exactly what the server answers to it.  A statement that failed does
    not close the connection: it stays open and held, and no later query
    connects again or closes it. *)
Theorem execute_keeps_connection srv self w pw q :
  conn self = None → password self = Some pw →
  accepts srv (host self) (db self) (user self) pw = true →
  execute srv q (self, w)
  = (answer srv q, (set_conn self (Some (length w)), Connect (length w) :: w)) ∧
  ∀ q', (execute srv q' (set_conn self (Some (length w)), Connect (length w) :: w)).2
        = (set_conn self (Some (length w)), Connect (length w) :: w).
Proof.
  intros Hc Hp Ha. split.
  - rewrite execute_run, cursor_run, Hc, Hp, Ha. done.
  - intros q'. by rewrite execute_state, cursor_state.
Qed.

(** On the sample shop: the first query is refused as text. *)
Lemma execute_keeps_connection_witness :
  execute shop_server (SelectColumns "public" "o'x")
    (Database_init "pw" "localhost" "shopdb" "alice" None, [])
  = (inl (DatabaseError "syntax error"),
     (mkDatabase "localhost" "shopdb" "alice" (Some "pw") (Some 0), [Connect 0])) ∧
  ∀ q', (execute shop_server q'
           (mkDatabase "localhost" "shopdb" "alice" (Some "pw") (Some 0), [Connect 0])).2
        = (mkDatabase "localhost" "shopdb" "alice" (Some "pw") (Some 0), [Connect 0]).
Proof.
  apply (execute_keeps_connection shop_server
           (Database_init "pw" "localhost" "shopdb" "alice" None) [] "pw"
           (SelectColumns "public" "o'x")).
  - reflexivity.
  - reflexivity.
  - reflexivity.
Defined.

(** ** The script over a file system *)

Lemma save_close_on_always_writable st :
  save_close_on (λ _, true) st = save_close st.
Proof. reflexivity. Qed.

Lemma main_on_always_writable srv typed h d u s tl xc out w :
  main_on srv (λ _, true) typed h d u s tl xc out w = main srv typed h d u s tl xc out w.
Proof. reflexivity. Qed.

Lemma column_list_run srv tbl (self : DatabaseQuery) w rows :
  is_connected (base self) w →
  answer srv (SelectColumns (schema self) tbl) = inr rows →
  column_list srv tbl (self, w) = (inr (kept_columns srv self tbl), (self, w)).
Proof.
  intros Hc Ha. unfold column_list, kept_columns.
  erewrite bind_run; [|reflexivity]. cbv beta iota.
  pose proof (inherited_execute srv (SelectColumns (schema self) tbl) (self, w)
                (is_connected_can_query srv _ _ Hc)) as Hex.
  rewrite connected_q_is_connected in Hex by done. simpl in Hex.
  rewrite Ha in Hex |- *. erewrite bind_run; [|exact Hex].
  by destruct (xcols self).
Qed.

Lemma write_sheets_run srv ts (self : DatabaseQuery) w (ods : OdsFile) st root kids :
  is_connected (base self) w →
  Forall (λ t, ∃ rows, answer srv (SelectColumns (schema self) t) = inr rows) ts →
  wkbook ods = Some root →
  st !! root = Some (Element Spreadsheet kids) → closed root st →
  ∃ st', write_sheets srv ts ((self, w), (ods, st))
         = (inr tt, ((self, w), (ods, st'))) ∧
         sheets_of st' root
         = sheets_of st root ++
           ((λ t, sheet_of_columns t (kept_columns srv self t)) <$> ts).
Proof.
  intros Hc Hts Hwk. revert st kids.
  induction Hts as [|t ts [rows Ht] Hts IH]; intros st kids Hroot Hclosed.
  - exists st. split; [done|]. by rewrite app_nil_r.
  - unfold write_sheets in *. simpl.
    destruct (IH (written st root t (kept_columns srv self t))
                 (kids ++ [length st])) as (st' & Hrun & Hsheets).
    + by apply written_root.
    + by eapply closed_written.
    + exists st'. split.
      * erewrite bind_run; [exact Hrun|].
        erewrite bind_run; [|unfold on_ods; by rewrite new_sheet_run].
        erewrite bind_run;
          [|unfold on_db; by rewrite (column_list_run srv t self w rows)].
        erewrite bind_run; [|unfold on_ods; by rewrite add_row_to_sheet_run].
        unfold on_ods. by rewrite (add_sheet_run _ _ root).
      * rewrite Hsheets. rewrite (sheets_of_written st root kids) by done.
        by rewrite <- app_assoc.
Qed.

Lemma main_on_run srv writable typed h d u s tl xc out w self w1 c :
  DatabaseQuery_init srv typed h d u s tl xc w = (inr self, w1) →
  Forall (λ t, ∃ rows, answer srv (SelectColumns (schema self) t) = inr rows)
    (tbl_list self) →
  conn (base self) = Some c →
  main_on srv writable typed h d u s tl xc out w
  = if writable out
    then (inr (out, (λ t, sheet_of_columns t (kept_columns srv self t)) <$> tbl_list self),
          Close c :: w1)
    else (inl OSError, w1).
Proof.
  intros Hinit Hts Hconn.
  pose proof (DatabaseQuery_init_inr _ _ _ _ _ _ _ _ _ _ _ Hinit) as (Hc & _).
  destruct (write_sheets_run srv (tbl_list self) self w1
              (mkOdsFile (Some out) (Some 0)) [Element Spreadsheet []] 0 [])
    as (st' & Hrun & Hsheets); try done.
  { apply closed_new_document. }
  unfold main_on. rewrite Hinit.
  erewrite bind_run; [|reflexivity]. erewrite bind_run; [|exact Hrun].
  destruct (writable out) eqn:Ew.
  - erewrite bind_run; [|unfold on_ods, save_close_on; run; by rewrite Ew].
    rewrite Hsheets. simpl.
    unfold on_db, inherited, close, conn_close, assign_conn. run.
    by rewrite Hconn.
  - erewrite bind_fail; [|unfold on_ods, save_close_on; run; by rewrite Ew].
    done.
Qed.

Lemma main_on_plain srv cat writable typed h d u s tl xc out w :
  serves_plain srv cat → accepts srv h d u typed = true → plain s →
  (∀ req, tl = Some req → Forall (λ e, plain e) (split "," (strip req))) →
  (∀ t, t ∈ tables_in cat s → plain t) →
  ∃ l, StronglySorted String.le l ∧ NoDup l ∧
       (∀ t, t ∈ l ↔
             t ∈ tables_in cat s ∧
             match tl with
             | None => True
             | Some req => ∃ e, e ∈ split "," (strip req) ∧ selects e t
             end) ∧
       main_on srv writable typed h d u s tl xc out w
       = if writable out
         then (inr (out,
                    (λ t, Sheet t
                       [text_cell <$>
                          match xc with
                          | None => columns_of cat s t
                          | Some x =>
                              filter (λ c, c ∉ split "," (strip x)) (columns_of cat s t)
                          end]) <$> l),
               Close (length w) :: Connect (length w) :: w)
         else (inl OSError, Connect (length w) :: w).
Proof.
  intros Hsrv Ha Hs Hreq Hnames.
  set (self0 := mkDatabaseQuery (Database_init typed h d u None) s tl (strip <$> xc) []).
  assert (can_query srv (base self0) w) as Hq by done.
  destruct (table_list_plain srv cat self0 w Hsrv Hq Hs Hreq)
    as (l & Hrun & Hsorted & Hnd & Hl).
  exists l. split; [done|]. split; [done|]. split; [done|].
  rewrite (main_on_run srv writable typed h d u s tl xc out w
             (set_tbl_list (connected_q (set_tbls self0 (strip <$> tl), w)).1 l)
             (connected_q (set_tbls self0 (strip <$> tl), w)).2 (length w)).
  - simpl. destruct (writable out); [|done]. do 3 f_equal.
    apply list_fmap_ext. intros _ t Ht%list_elem_of_lookup_2.
    apply Hl in Ht as [Ht _].
    destruct (plain_columns _ _ Hsrv s t Hs (Hnames _ Ht)) as (rows & Hrows & Hcols).
    unfold sheet_of_columns, kept_columns. simpl. rewrite Hrows, Hcols.
    by destruct xc.
  - unfold DatabaseQuery_init. fold self0. by rewrite Hrun.
  - simpl. apply Forall_forall. intros t Ht. apply Hl in Ht as [Ht _].
    destruct (plain_columns _ _ Hsrv s t Hs (Hnames _ Ht)) as (rows & Hrows & _).
    eauto.
  - reflexivity.
Qed.

(** X18: when the connection succeeds, the output file can be opened for
    writing, the server answers from its catalog, and the schema name, the
    entries of the request and the table names of the schema read as
    themselves in the SQL text (no single quote, no backslash, at most 63
    bytes), the script succeeds.  The tables resolved are, sorted and
    each once, exactly the tables of the schema that the request selects
    (all of them without a request); the document has one sheet per
    resolved table, in that order, each with one row of text cells for
    the columns kept; and the script has opened exactly one connection
    and closed it. *)
Theorem main_succeeds srv cat writable typed h d u s tl xc out w :
  serves_plain srv cat → accepts srv h d u typed = true → writable out = true →
  plain s →
  (∀ req, tl = Some req → Forall (λ e, plain e) (split "," (strip req))) →
  (∀ t, t ∈ tables_in cat s → plain t) →
  ∃ l, StronglySorted String.le l ∧ NoDup l ∧
       (∀ t, t ∈ l ↔
             t ∈ tables_in cat s ∧
             match tl with
             | None => True
             | Some req => ∃ e, e ∈ split "," (strip req) ∧ selects e t
             end) ∧
       main_on srv writable typed h d u s tl xc out w
       = (inr (out,
               (λ t, Sheet t
                  [text_cell <$>
                     match xc with
                     | None => columns_of cat s t
                     | Some x =>
                         filter (λ c, c ∉ split "," (strip x)) (columns_of cat s t)
                     end]) <$> l),
          Close (length w) :: Connect (length w) :: w).
Proof.
  intros Hsrv Ha Hw Hs Hreq Hnames.
  destruct (main_on_plain srv cat writable typed h d u s tl xc out w Hsrv Ha Hs Hreq Hnames)
    as (l & ? & ? & ? & Hrun).
  rewrite Hw in Hrun. by exists l.
Qed.

(** On the sample shop, in a directory where only [out.ods] can be
    written. *)
Lemma main_succeeds_witness :
  ∃ l, StronglySorted String.le l ∧ NoDup l ∧
       (∀ t, t ∈ l ↔
             t ∈ tables_in shop "public" ∧
             ∃ e, e ∈ split "," (strip "x_*,orders") ∧ selects e t) ∧
       main_on shop_server (λ f, bool_decide (f = "out.ods"))
         "pw" "localhost" "shopdb" "alice" "public" (Some "x_*,orders")
         (Some "id,created_at") "out.ods" []
       = (inr ("out.ods",
               (λ t, Sheet t
                  [text_cell <$>
                     filter (λ c, c ∉ split "," (strip "id,created_at"))
                       (columns_of shop "public" t)]) <$> l),
          [Close 0; Connect 0]).
Proof.
  apply (main_succeeds shop_server shop (λ f, bool_decide (f = "out.ods"))
           "pw" "localhost" "shopdb" "alice" "public"
           (Some "x_*,orders") (Some "id,created_at") "out.ods" []).
  - apply catalog_server_serves_plain.
  - reflexivity.
  - reflexivity.
  - reflexivity.
  - intros req [= <-]. apply (bool_decide_unpack _). vm_compute. reflexivity.
  - apply (proj1 (Forall_forall (λ t, plain t) (tables_in shop "public"))).
    apply (bool_decide_unpack _). vm_compute. reflexivity.
Defined.

Example main_on_ex :
  main_on shop_server (λ f, bool_decide (f = "out.ods"))
    "pw" "localhost" "shopdb" "alice" "public" (Some "x_*,orders")
    (Some "id,created_at") "out.ods" []
  = (inr ("out.ods",
          [Sheet "X_b" [[text_cell "col3"]];
           Sheet "orders" [[text_cell "name"; text_cell "total"]];
           Sheet "x_a" [[text_cell "col1"; text_cell "col2"]]]),
     [Close 0; Connect 0]).
Proof. vm_compute. reflexivity. Qed.

(** X20: a schema without tables (or one that does not exist) is no
    error: when the connection succeeds and the output file can be opened
    for writing, the script succeeds and writes a document without sheets
    (schema name and entries reading as themselves in the SQL text). *)
Theorem main_empty_schema srv cat writable typed h d u s tl xc out w :
  serves_plain srv cat → accepts srv h d u typed = true → writable out = true →
  plain s →
  (∀ req, tl = Some req → Forall (λ e, plain e) (split "," (strip req))) →
  tables_in cat s = [] →
  main_on srv writable typed h d u s tl xc out w
  = (inr (out, []), Close (length w) :: Connect (length w) :: w).
Proof.
  intros Hsrv Ha Hw Hs Hreq Hempty.
  destruct (main_on_plain srv cat writable typed h d u s tl xc out w Hsrv Ha Hs Hreq)
    as (l & _ & _ & Hin & ->).
  { rewrite Hempty. by intros t ?%elem_of_nil. }
  rewrite Hw. assert (l = []) as ->; [|done].
  apply elem_of_nil_inv. intros t [Ht _]%Hin. rewrite Hempty in Ht.
  by apply elem_of_nil in Ht.
Qed.

Lemma main_empty_schema_witness :
  main_on shop_server (λ f, bool_decide (f = "out.ods"))
    "pw" "localhost" "shopdb" "alice" "nowhere" (Some "x_*,orders")
    None "out.ods" []
  = (inr ("out.ods", []), [Close 0; Connect 0]).
Proof.
  apply (main_empty_schema shop_server shop (λ f, bool_decide (f = "out.ods"))
           "pw" "localhost" "shopdb" "alice"
           "nowhere" (Some "x_*,orders") None "out.ods" []).
  - apply catalog_server_serves_plain.
  - reflexivity.
  - reflexivity.
  - reflexivity.
  - intros req [= <-]. apply (bool_decide_unpack _). vm_compute. reflexivity.
  - reflexivity.
Defined.

(** X21: [open] starts an empty document whatever the writer held before:
    saving right after it writes a document without sheets under the new
    name when that file can be opened for writing, and raises [OSError]
    when it cannot. *)
Theorem open_starts_empty_document writable (ods : OdsFile) st name :
  ((open name;; save_close_on writable) (ods, st)).1
  = if writable name then inr (name, []) else inl OSError.
Proof.
  unfold open, save_close_on, new_element. run.
  destruct (writable name); [|done].
  unfold sheets_of. by rewrite list_lookup_middle.
Qed.


